(** * CrimeDataStory: the incident pipeline and its scoring, verified

    A shallow embedding of [utils.py], [crime_dashboard.py] and
    [safety_score.py].  Data frames are lists of rows, Python dictionaries
    are finite maps, exceptions are an explicit [Raise] result, the
    geocoding provider and the cache file are an explicitly threaded
    world, and floating-point columns are read as exact rationals or reals
    extended with the IEEE special values the code can produce. *)

From Stdlib Require Import ZArith QArith Qminmax Qround Qreals Reals Lia Psatz List String.
From stdpp Require Import base gmap strings list sorting.

Set Default Proof Using "Type".

(** ** Exceptions and results *)

Inductive exn :=
| KeyError (key : string)
| ValueError (msg : string)
| IndexError
| OutOfBoundsDatetime.

Inductive result (A : Type) :=
| Ok (a : A)
| Raise (e : exn).
Arguments Ok {A} a.
Arguments Raise {A} e.

Definition rbind {A B} (r : result A) (k : A → result B) : result B :=
  match r with
  | Ok a => k a
  | Raise e => Raise e
  end.

Notation "x ←! r ; k" := (rbind r (λ x, k))
  (at level 100, r at next level, right associativity).

Definition is_ok {A} (r : result A) : bool :=
  match r with Ok _ => true | Raise _ => false end.

(** ** Rows of the incident table *)

Inductive TimeOfDay := Night | Morning | Afternoon | Evening.

Global Instance TimeOfDay_eq_dec : EqDecision TimeOfDay.
Proof. solve_decision. Defined.

(** A road edge is the triple (origin, destination, key). *)
Definition Edge : Type := Z * Z * Z.

(** One row of the data frame.  The three feed columns are nullable; the
    derived columns are empty until the stage that fills them has run.
    [Occurred_Datetime] is the timestamp in milliseconds since the epoch
    ([None] is NaT); latitude and longitude are read as rationals. *)
Record Incident := mkIncident {
  Incident_Type : option string;
  Block_Address : option string;
  Occurred_Datetime : option Z;
  coords : option (Q * Q);
  latitude : option Q;
  longitude : option Q;
  hour : option Z;
  time_of_day : option TimeOfDay;
  edge : option Edge
}.

Definition DataFrame := list Incident.

(** ** utils.py: add_time_of_day *)

Module TimeBuckets.

Definition bins : list Z := [0; 6; 12; 18; 24]%Z.
Definition labels : list TimeOfDay := [Night; Morning; Afternoon; Evening].

(** [pd.cut(x, bins, labels, right=False)]: the label of the first
    interval [bins[i], bins[i+1]) holding [x]; NaN outside all of them. *)
Fixpoint cut (x : Z) (bs : list Z) (ls : list TimeOfDay) : option TimeOfDay :=
  match bs, ls with
  | lo :: ((hi :: _) as bs'), l :: ls' =>
      if ((lo <=? x) && (x <? hi))%Z then Some l else cut x bs' ls'
  | _, _ => None
  end.

(** [Series.dt.hour] of a naive timestamp given in milliseconds. *)
Definition dt_hour (ms : Z) : Z := ((ms / 3600000) mod 24)%Z.

Definition bucket_of_hour (h : Z) : option TimeOfDay := cut h bins labels.

Definition add_time_of_day_row (r : Incident) : Incident :=
  let h := dt_hour <$> Occurred_Datetime r in
  {| Incident_Type := Incident_Type r;
     Block_Address := Block_Address r;
     Occurred_Datetime := Occurred_Datetime r;
     coords := coords r;
     latitude := latitude r;
     longitude := longitude r;
     hour := h;
     time_of_day := h ≫= bucket_of_hour;
     edge := edge r |}.

Definition add_time_of_day (df : DataFrame) : DataFrame :=
  add_time_of_day_row <$> df.

End TimeBuckets.

(** ** crime_dashboard.py: the applied filters *)

Module Filters.

(** [Series.isin(values)] on a nullable string column. *)
Definition isin_type (types : list (option string)) (r : Incident) : bool :=
  bool_decide (Incident_Type r ∈ types).

(** [Series.isin(values)] on the categorical bucket column: a missing
    bucket is in no selection. *)
Definition isin_time (times : list TimeOfDay) (r : Incident) : bool :=
  match time_of_day r with
  | Some t => bool_decide (t ∈ times)
  | None => false
  end.

Definition filter_by_type (types : list (option string)) (df : DataFrame) : DataFrame :=
  List.filter (isin_type types) df.

Definition filter_by_time (times : list TimeOfDay) (df : DataFrame) : DataFrame :=
  List.filter (isin_time times) df.

(** The mask of [original_main]:
    [geo_df[Incident_Type.isin(types) & time_of_day.isin(times)]]. *)
Definition filtered_df (types : list (option string)) (times : list TimeOfDay)
    (geo_df : DataFrame) : DataFrame :=
  List.filter (λ r, isin_type types r && isin_time times r) geo_df.

End Filters.

(** ** utils.py: fetch_crime_data *)

Module Fetch.

Record Date := mkDate { year : Z; month : Z; day : Z }.

(** The [attributes] object of one feature: the three requested
    [outFields], each a JSON value of the field's type or null. *)
Record Attributes := mkAttributes {
  attr_Incident_Type : option string;
  attr_Block_Address : option string;
  attr_Occurred_Datetime : option Z
}.

(** A feature may lack the [attributes] key ([feature.get("attributes", {})]). *)
Record Feature := mkFeature { attributes : option Attributes }.

(** The decoded response; [None] when it has no [features] key
    ([data.get("features", [])]). *)
Record Response := mkResponse { features : option (list Feature) }.

Record Query := mkQuery {
  where_from : Date;
  where_until : Date;
  resultOffset : Z;
  resultRecordCount : Z
}.

(** The remote feature service, one answer per request. *)
Definition Service := Query → Response.

Definition batch_size : Z := 2000.

(** The [while True] loop: [fuel] bounds the number of requests, [None]
    is a loop that has not ended within it. *)
Fixpoint fetch_loop (service : Service) (start_date end_date : Date)
    (fuel : nat) (offset : Z) (all_features : list Feature)
    : option (list Feature) :=
  match fuel with
  | O => None
  | S fuel' =>
      let data := service (mkQuery start_date end_date offset batch_size) in
      let page := default [] (features data) in
      match page with
      | [] => Some all_features
      | _ :: _ =>
          fetch_loop service start_date end_date fuel'
            (offset + batch_size)%Z (all_features ++ page)
      end
  end.

(** [pd.DataFrame(records)] for a list of dictionaries: the columns are
    the keys that occur in some record, one row per record. *)
Record RawFrame := mkRawFrame {
  raw_columns : list string;
  raw_rows : list (option Attributes)
}.

Definition out_fields : list string :=
  ["Incident_Type"; "Block_Address"; "Occurred_Datetime"].

Definition frame_of_records (records : list (option Attributes)) : RawFrame :=
  {| raw_columns := if existsb (λ r, bool_decide (is_Some r)) records
                    then out_fields else [];
     raw_rows := records |}.

(** [df["Occurred_Datetime"]]: a missing column is a [KeyError]. *)
Definition getitem_Occurred_Datetime (df : RawFrame) : result (list (option Z)) :=
  if bool_decide ("Occurred_Datetime" ∈ raw_columns df)
  then Ok ((λ r, r ≫= attr_Occurred_Datetime) <$> raw_rows df)
  else Raise (KeyError "Occurred_Datetime").

(** [pd.to_datetime(_, unit="ms")] on one cell: null becomes NaT, a
    number becomes a timestamp when its nanosecond count fits 64 bits. *)
Definition to_datetime_ms (cell : option Z) : result (option Z) :=
  match cell with
  | None => Ok None
  | Some ms =>
      if ((- 2 ^ 63 <? ms * 1000000) && (ms * 1000000 <? 2 ^ 63))%Z
      then Ok (Some ms) else Raise OutOfBoundsDatetime
  end.

Fixpoint to_datetime (cells : list (option Z)) : result (list (option Z)) :=
  match cells with
  | [] => Ok []
  | c :: cells' =>
      t ←! to_datetime_ms c;
      ts ←! to_datetime cells';
      Ok (t :: ts)
  end.

Definition raw_incident (r : option Attributes) (stamp : option Z) : Incident :=
  {| Incident_Type := r ≫= attr_Incident_Type;
     Block_Address := r ≫= attr_Block_Address;
     Occurred_Datetime := stamp;
     coords := None; latitude := None; longitude := None;
     hour := None; time_of_day := None; edge := None |}.

(** The statements after the loop. *)
Definition frame_of_features (all_features : list Feature) : result DataFrame :=
  let df := frame_of_records (attributes <$> all_features) in
  column ←! getitem_Occurred_Datetime df;
  stamps ←! to_datetime column;
  Ok (zip_with raw_incident (raw_rows df) stamps).

Definition fetch_crime_data (service : Service) (fuel : nat)
    (start_date end_date : Date) : option (result DataFrame) :=
  frame_of_features <$> fetch_loop service start_date end_date fuel 0 [].

End Fetch.

(** ** utils.py: geocode_addresses and process_spatial_data *)

(** [Series.unique()]: the distinct values in order of first appearance. *)
Fixpoint unique {A} `{EqDecision A} (l : list A) : list A :=
  match l with
  | [] => []
  | x :: l' => x :: List.filter (λ y, bool_decide (y ≠ x)) (unique l')
  end.

Module Geocode.

(** What one call of the rate-limited [geocode] does, seen from
    [geocode_addresses]: it returns a location, returns [None], or raises.
    One such call is one lookup. *)
Inductive Outcome :=
| Located (lat lon : Q)
| NoMatch
| Failed.

Definition Provider := string → Outcome.

Abbreviation Cache := (gmap string (option (Q * Q))).

(** The world a pass runs in: the cache file (absent, or a JSON object
    from address to pair-or-null) and the requests sent to the provider. *)
Record World := mkWorld {
  cache_file : option Cache;
  requests : list string
}.

Definition query (address : string) : string := address +:+ ", Berkeley, CA".

Record LoopState := mkLoop {
  geocode_cache : Cache;
  address_coords : Cache;
  sent : list string
}.

Definition cache_entry (o : Outcome) : option (Q * Q) :=
  match o with
  | Located lat lon => Some (lat, lon)
  | NoMatch => None
  | Failed => None
  end.

(** One iteration of the [for] loop over the unique addresses. *)
Definition loop_body (geocode : Provider) (st : LoopState) (address : string)
    : LoopState :=
  let st1 :=
    match geocode_cache st !! address with
    | Some _ => st
    | None =>
        {| geocode_cache :=
             <[address := cache_entry (geocode (query address))]> (geocode_cache st);
           address_coords := address_coords st;
           sent := sent st ++ [query address] |}
    end in
  {| geocode_cache := geocode_cache st1;
     address_coords := <[address := geocode_cache st1 !!! address]> (address_coords st1);
     sent := sent st1 |}.

Definition unique_addresses (df : DataFrame) : list string :=
  unique (omap Block_Address df).

Definition geocode_loop (geocode : Provider) (cache : Cache) (df : DataFrame)
    : LoopState :=
  fold_left (loop_body geocode) (unique_addresses df) (mkLoop cache ∅ []).

(** [_df['Block_Address'].map(address_coords)]: a null address, an
    address that is no key, and a null entry all give a missing value. *)
Definition map_coords (address_coords : Cache) (r : Incident) : option (Q * Q) :=
  a ← Block_Address r; mjoin (address_coords !! a).

(** The row with its [coords], [latitude] and [longitude] columns;
    [None] for a row that [dropna(subset=['coords'])] removes. *)
Definition geocoded_row (address_coords : Cache) (r : Incident) : option Incident :=
  c ← map_coords address_coords r;
  Some {| Incident_Type := Incident_Type r;
          Block_Address := Block_Address r;
          Occurred_Datetime := Occurred_Datetime r;
          coords := Some c;
          latitude := Some (fst c);
          longitude := Some (snd c);
          hour := hour r; time_of_day := time_of_day r; edge := edge r |}.

(** The whole pass, as the function body runs it (under Streamlit's
    memoising decorator a repeated call may run nothing at all).  The
    cache file is rewritten before the frame is rebuilt; assigning the two
    coordinate columns from an empty list of pairs raises [ValueError]. *)
Definition geocode_addresses (geocode : Provider) (df : DataFrame) (w : World)
    : result DataFrame * World :=
  let st := geocode_loop geocode (default ∅ (cache_file w)) df in
  let w' := {| cache_file := Some (geocode_cache st);
               requests := requests w ++ sent st |} in
  match omap (geocoded_row (address_coords st)) df with
  | [] => (Raise (ValueError "Columns must be same length as key"), w')
  | (_ :: _) as out => (Ok out, w')
  end.

(** [process_spatial_data]: each row gets the edge the road-network
    library reports as nearest to its point. *)
Definition process_spatial_row (nearest_edges : Q → Q → Edge) (r : Incident) : Incident :=
  {| Incident_Type := Incident_Type r;
     Block_Address := Block_Address r;
     Occurred_Datetime := Occurred_Datetime r;
     coords := coords r; latitude := latitude r; longitude := longitude r;
     hour := hour r; time_of_day := time_of_day r;
     edge := lat ← latitude r; lon ← longitude r; Some (nearest_edges lon lat) |}.

Definition process_spatial_data (nearest_edges : Q → Q → Edge) (df : DataFrame)
    : DataFrame :=
  process_spatial_row nearest_edges <$> df.

End Geocode.

(** ** crime_dashboard.py: the "Run Analysis" branch of original_main *)

Module Dashboard.
Import Fetch Geocode.

(** What the branch leaves in the session state: nothing for an empty
    frame, the processed frame otherwise. *)
Definition run_analysis (service : Service) (fuel : nat) (geocode : Provider)
    (nearest_edges : Q → Q → Edge) (start_date end_date : Date) (w : World)
    : option (result (option DataFrame) * World) :=
  fetched ← fetch_crime_data service fuel start_date end_date;
  Some match fetched with
       | Raise e => (Raise e, w)
       | Ok [] => (Ok None, w)
       | Ok ((_ :: _) as raw_df) =>
           match geocode_addresses geocode raw_df w with
           | (Raise e, w') => (Raise e, w')
           | (Ok geo_df, w') =>
               (Ok (Some (process_spatial_data nearest_edges
                            (TimeBuckets.add_time_of_day geo_df))), w')
           end
       end.

End Dashboard.

(** ** Quantiles by linear interpolation *)

Module Quantile.

(** Sorting of the sample, as the libraries do before interpolating. *)
Definition sort (l : list Z) : list Z := merge_sort Z.le l.

(** [np.quantile(values, q)] and [Series.quantile(q)] with the default
    linear method, on integer data: the virtual index [(n-1)*q] is split
    into its floor and its fraction, and the two neighbouring order
    statistics are interpolated.  On an empty input the libraries give
    NaN; no caller below reads the value there. *)
Definition quantile (values : list Z) (q : Q) : Q :=
  let sorted := sort values in
  let last := (Z.of_nat (length values) - 1)%Z in
  let h := (inject_Z last * q)%Q in
  let lo := Qfloor h in
  let hi := Z.min (lo + 1) last in
  let a := nth (Z.to_nat lo) sorted 0%Z in
  let b := nth (Z.to_nat hi) sorted 0%Z in
  (inject_Z a + (inject_Z b - inject_Z a) * (h - inject_Z lo))%Q.

End Quantile.

(** ** crime_dashboard.py: classify_counts and get_color_for_count *)

Module Colors.
Import Quantile.

Fixpoint insert_sortedQ (x : Q) (l : list Q) : list Q :=
  match l with
  | [] => [x]
  | y :: l' => if Qle_bool x y then x :: l else y :: insert_sortedQ x l'
  end.

Fixpoint dedup_sorted (l : list Q) : list Q :=
  match l with
  | [] => []
  | x :: l' =>
      match l' with
      | y :: _ => if Qeq_bool x y then dedup_sorted l' else x :: dedup_sorted l'
      | [] => [x]
      end
  end.

(** [np.unique]: the sorted distinct values. *)
Definition np_unique (l : list Q) : list Q := dedup_sorted (foldr insert_sortedQ [] l).

Definition percentiles : list Q := [2 # 10; 4 # 10; 6 # 10; 8 # 10; 1]%Q.

(** [classify_counts] over the dictionary from edge to count. *)
Definition classify_counts (counts : list (Edge * Z)) : list Q :=
  match counts with
  | [] => []
  | _ :: _ =>
      let values := snd <$> counts in
      np_unique (quantile values <$> percentiles)
  end.

Definition color_palette : list string :=
  ["#2ECC40"; "#FFDC00"; "#FF851B"; "#FF4136"; "#85144b"].

Definition no_data_color : string := "#CCCCCC".

(** The [for] loop of [get_color_for_count]: the first index [i] with
    [breaks[i] <= count < breaks[i+1]]. *)
Fixpoint first_interval (count : Q) (breaks : list Q) (i : nat) : option nat :=
  match breaks with
  | lo :: ((hi :: _) as rest) =>
      if Qle_bool lo count && negb (Qle_bool hi count) then Some i
      else first_interval count rest (S i)
  | _ => None
  end.

Definition get_color_for_count (count : Z) (breaks : list Q) : result string :=
  match breaks with
  | [] => Ok no_data_color
  | _ :: _ =>
      match first_interval (inject_Z count) breaks 0 with
      | Some i =>
          match color_palette !! i with
          | Some c => Ok c
          | None => Raise IndexError
          end
      | None => Ok (List.last color_palette no_data_color)
      end
  end.

(** The color of every edge of the map, as [create_crime_map] assigns it. *)
Definition edge_colors (edge_counts : list (Edge * Z)) : list (Edge * result string) :=
  let breaks := classify_counts edge_counts in
  (λ '(e, count), (e, get_color_for_count count breaks)) <$> edge_counts.

End Colors.

(** ** safety_score.py *)

Module SafetyScore.
Import Quantile.

(** A floating-point cell: a real number, or one of the special values a
    division can produce. *)
Inductive xreal :=
| Finite (r : R)
| PosInf
| NegInf
| NaN.

(** Rounding to the nearest integer, ties to the even one. *)
Definition rint (x : R) : Z :=
  let f := Int_part x in
  let d := (x - IZR f)%R in
  if Rlt_dec d (1 / 2) then f
  else if Rlt_dec (1 / 2) d then (f + 1)%Z
  else if Z.even f then f else (f + 1)%Z.

(** [np.round(x, 1)]. *)
Definition round1 (x : R) : R := (IZR (rint (x * 10)) / 10)%R.

(** [clip(lower, upper)]. *)
Definition clip (lower upper x : R) : R := Rmin upper (Rmax lower x).

(** The score of one count, given the median and the 95th percentile of
    the distribution: cap, center and scale (on rationals), logistic
    curve, rounding, clamp. *)
Definition density_score (p50 p95 : Q) (count : Z) : R :=
  let x := Qmin (inject_Z count) p95 in
  let scaled := ((x - p50) / (p95 - p50 + (1 # 1000000000)))%Q in
  let scores := (10 * (1 - 1 / (1 + exp (- 3 * Q2R scaled))))%R in
  clip (1 / 2) (19 / 2) (round1 scores).

Definition calculate_crime_density_scores (crime_counts : list Z) : list R :=
  let p50 := quantile crime_counts (50 # 100) in
  let p95 := quantile crime_counts (95 # 100) in
  density_score p50 p95 <$> crime_counts.

(** [Series.value_counts()]: each distinct edge with its number of rows
    (the order of the result plays no role below). *)
Definition value_counts (edges : list Edge) : list (Edge * Z) :=
  (λ e, (e, Z.of_nat (length (List.filter (λ e', bool_decide (e' = e)) edges))))
    <$> unique edges.

Fixpoint sum (l : list R) : R :=
  match l with
  | [] => 0%R
  | x :: l' => (x + sum l')%R
  end.

Definition mean (scores : list R) : R := (sum scores / INR (length scores))%R.

(** [Series.std()], the sample deviation (one degree of freedom removed):
    NaN for fewer than two values. *)
Definition std (scores : list R) : xreal :=
  match scores with
  | [] | [_] => NaN
  | _ =>
      let m := mean scores in
      Finite (sqrt (sum ((λ x, (x - m) * (x - m))%R <$> scores)
                    / INR (length scores - 1)))
  end.

(** Floating-point division of a number by the deviation. *)
Definition fdiv (a : R) (s : xreal) : xreal :=
  match s with
  | Finite s =>
      if Req_EM_T s 0 then
        if Req_EM_T a 0 then NaN
        else if Rlt_dec 0 a then PosInf else NegInf
      else Finite (a / s)
  | _ => NaN
  end.

(** [np.round(z * 2 + 5, 1).clip(0, 10)] on a cell. *)
Definition rescale (z : xreal) : xreal :=
  match z with
  | Finite r => Finite (clip 0 10 (round1 (r * 2 + 5)))
  | PosInf => Finite 10
  | NegInf => Finite 0
  | NaN => NaN
  end.

(** The "force normal distribution" step. *)
Definition renormalize (scores : list R) : list xreal :=
  let m := mean scores in
  let s := std scores in
  (λ x, rescale (fdiv (x - m) s)) <$> scores.

(** The left merge of the street table with the scored counts, and
    [fillna({'safety_score': 10})]. *)
Definition merged_scores (gdf_edges : list Edge) (edge_counts : list (Edge * Z))
    : list R :=
  let scores := calculate_crime_density_scores (snd <$> edge_counts) in
  let table : gmap Edge R := list_to_map (zip (fst <$> edge_counts) scores) in
  (λ e, default 10%R (table !! e)) <$> gdf_edges.

(** Steps 3 to 5 of [precompute_safety_scores], on the street table and
    the processed frame that steps 1 and 2 deliver: the final score of
    every street.  Splitting the edge column of an empty count table into
    its three key columns raises [ValueError]. *)
Definition precompute_safety_scores (gdf_edges : list Edge) (geo_df : DataFrame)
    : result (list (Edge * xreal)) :=
  match value_counts (omap edge geo_df) with
  | [] => Raise (ValueError "Columns must be same length as key")
  | (_ :: _) as edge_counts =>
      Ok (zip gdf_edges (renormalize (merged_scores gdf_edges edge_counts)))
  end.

End SafetyScore.

(** ** crime_dashboard.py: session filters and per-edge counts of original_main *)

Module View.
Import Filters SafetyScore.

Record FilterState := mkFilters {
  types : list (option string);
  times : list TimeOfDay;
  min_severity : Z
}.

Definition all_times : list TimeOfDay := [Night; Morning; Afternoon; Evening].

(** [st.session_state.filters] as the script initialises it. *)
Definition initial_filters : FilterState := mkFilters [] all_times 0.

(** [geo_df['Incident_Type'].unique().tolist()]. *)
Definition crime_types (geo_df : DataFrame) : list (option string) :=
  unique (Incident_Type <$> geo_df).

(** [temp_filters] as "Run Analysis" sets it. *)
Definition run_filters (geo_df : DataFrame) : FilterState :=
  mkFilters (crime_types geo_df) all_times 0.

(** The session state the dashboard page reads and writes. *)
Record Session := mkSession {
  processed_data : option DataFrame;
  filters : FilterState;
  temp_filters : option FilterState
}.

Definition initial_session : Session := mkSession None initial_filters None.

(** "Run Analysis" with a processed frame: the data and the staged filters
    are replaced, the applied filters are not touched. *)
Definition on_run (geo_df : DataFrame) (s : Session) : Session :=
  mkSession (Some geo_df) (filters s) (Some (run_filters geo_df)).

(** The refine widgets: the staged filters become the values selected. *)
Definition on_refine (selected : FilterState) (s : Session) : Session :=
  mkSession (processed_data s) (filters s) (Some selected).

(** "Apply Filters": the staged filters become the applied ones (the
    staged ones default to a copy of the applied ones). *)
Definition on_apply (s : Session) : Session :=
  mkSession (processed_data s) (default (filters s) (temp_filters s)) (temp_filters s).

(** [filtered_df] of the main pane. *)
Definition view_df (f : FilterState) (geo_df : DataFrame) : DataFrame :=
  filtered_df (types f) (times f) geo_df.

(** [filtered_df['edge'].value_counts().to_dict()]. *)
Definition edge_counts (f : FilterState) (geo_df : DataFrame) : list (Edge * Z) :=
  value_counts (omap edge (view_df f geo_df)).

(** The dictionary comprehension keeping [v >= min_severity]. *)
Definition filtered_edge_counts (f : FilterState) (geo_df : DataFrame)
    : list (Edge * Z) :=
  List.filter (λ kv, (min_severity f <=? kv.2)%Z) (edge_counts f geo_df).

(** What the main pane draws: nothing without processed data, otherwise
    the filtered rows and the colored streets. *)
Definition rendered (s : Session)
    : option (DataFrame * list (Edge * result string)) :=
  geo_df ← processed_data s;
  Some (view_df (filters s) geo_df,
        Colors.edge_colors (filtered_edge_counts (filters s) geo_df)).

End View.

(** ** predictive_features.py: the cluster count of the DBSCAN view *)

Module Predictive.

(** [np.unique(clusters)] on the label array ([-1] marks noise). *)
Definition np_unique_labels (clusters : list Z) : list Z :=
  Quantile.sort (unique clusters).

Definition n_clusters (clusters : list Z) : Z :=
  (Z.of_nat (length (np_unique_labels clusters)) - 1)%Z.

Inductive ClusterReport :=
| NoClustersFound
| ClustersPlotted (silhouette_computed : bool).

(** The branches under "DBSCAN Clustering". *)
Definition cluster_report (clusters : list Z) : ClusterReport :=
  if (0 <? n_clusters clusters)%Z then
    ClustersPlotted
      (bool_decide (2 < length (np_unique_labels clusters))
       && bool_decide (length (np_unique_labels clusters) < length clusters))
  else NoClustersFound.

End Predictive.

(** * Theorems *)

Module TimeBucketsSpec.
Import TimeBuckets.

Lemma dt_hour_range ms : (0 <= dt_hour ms < 24)%Z.
Proof. unfold dt_hour. apply Z.mod_pos_bound. lia. Qed.

Definition expected_bucket (h : Z) : TimeOfDay :=
  if (h <? 6)%Z then Night
  else if (h <? 12)%Z then Morning
  else if (h <? 18)%Z then Afternoon
  else Evening.

Lemma bucket_of_hour_expected h :
  (0 <= h < 24)%Z → bucket_of_hour h = Some (expected_bucket h).
Proof.
  intros Hh. unfold bucket_of_hour, expected_bucket, bins, labels. simpl.
  repeat match goal with
         | |- context [(?a <=? ?b)%Z] => destruct (Z.leb_spec a b)
         | |- context [(?a <? ?b)%Z] => destruct (Z.ltb_spec a b)
         end; simpl; try reflexivity; lia.
Qed.

Lemma bucket_of_hour_intervals (h : Z) :
  (0 <= h < 24)%Z →
  (∃ b, bucket_of_hour h = Some b) ∧
  (bucket_of_hour h = Some Night ↔ (0 <= h < 6)%Z) ∧
  (bucket_of_hour h = Some Morning ↔ (6 <= h < 12)%Z) ∧
  (bucket_of_hour h = Some Afternoon ↔ (12 <= h < 18)%Z) ∧
  (bucket_of_hour h = Some Evening ↔ (18 <= h < 24)%Z).
Proof.
  intros Hh. rewrite (bucket_of_hour_expected h Hh).
  split; [eauto|].
  unfold expected_bucket.
  repeat match goal with
         | |- context [(?a <? ?b)%Z] => destruct (Z.ltb_spec a b)
         end;
    repeat split; intros; try discriminate; try lia; try reflexivity.
Qed.

(** The columns [add_time_of_day] writes into one row. *)
Lemma add_time_of_day_row_columns (r : Incident) :
  hour (add_time_of_day_row r) = dt_hour <$> Occurred_Datetime r ∧
  time_of_day (add_time_of_day_row r) = hour (add_time_of_day_row r) ≫= bucket_of_hour.
Proof. split; reflexivity. Qed.

(** C4. For every hour in [0,24) the bucket is defined and is fixed by
    the half-open intervals: [0,6) is Night, [6,12) Morning, [12,18)
    Afternoon and [18,24) Evening; each hour thus lies in exactly one
    bucket, and hours 5, 6 and 23 fall in Night, Morning and Evening.
    And this is what [add_time_of_day] gives every incident of a frame:
    its [hour] column is the hour of its timestamp, its [time_of_day]
    column is the bucket of that [hour] column, an incident with an hour
    has it in [0,24) and has a bucket, and an incident whose hour is [h]
    is in Night, Morning, Afternoon or Evening exactly when [h] is in the
    interval of that bucket. *)
Theorem time_of_day_partition (df : DataFrame) (h : Z) :
  (0 <= h < 24)%Z →
  (∃ b, bucket_of_hour h = Some b) ∧
  (bucket_of_hour h = Some Night ↔ (0 <= h < 6)%Z) ∧
  (bucket_of_hour h = Some Morning ↔ (6 <= h < 12)%Z) ∧
  (bucket_of_hour h = Some Afternoon ↔ (12 <= h < 18)%Z) ∧
  (bucket_of_hour h = Some Evening ↔ (18 <= h < 24)%Z) ∧
  bucket_of_hour 5 = Some Night ∧
  bucket_of_hour 6 = Some Morning ∧
  bucket_of_hour 23 = Some Evening ∧
  Forall2 (λ r r',
      hour r' = dt_hour <$> Occurred_Datetime r ∧
      time_of_day r' = hour r' ≫= bucket_of_hour ∧
      (∀ x, hour r' = Some x → (0 <= x < 24)%Z ∧ ∃ b, time_of_day r' = Some b))
    df (add_time_of_day df) ∧
  (∀ r', r' ∈ add_time_of_day df → hour r' = Some h →
     (time_of_day r' = Some Night ↔ (0 <= h < 6)%Z) ∧
     (time_of_day r' = Some Morning ↔ (6 <= h < 12)%Z) ∧
     (time_of_day r' = Some Afternoon ↔ (12 <= h < 18)%Z) ∧
     (time_of_day r' = Some Evening ↔ (18 <= h < 24)%Z)).
Proof.
  intros Hh.
  destruct (bucket_of_hour_intervals h Hh) as (Hb & HN & HM & HA & HE).
  repeat (split; [first [exact Hb|exact HN|exact HM|exact HA|exact HE|reflexivity]|]).
  split.
  - unfold add_time_of_day. apply Forall2_fmap_r, Forall_Forall2_diag, Forall_forall.
    intros r _. destruct (add_time_of_day_row_columns r) as [Hhour Hbucket].
    split; [exact Hhour|]. split; [exact Hbucket|].
    intros x Hx. rewrite Hbucket, Hx. simpl.
    rewrite Hhour in Hx. destruct (Occurred_Datetime r) as [ms|]; [|discriminate].
    injection Hx as <-. pose proof (dt_hour_range ms) as Hrange.
    split; [exact Hrange|]. apply (bucket_of_hour_intervals _ Hrange).
  - intros r' Hr' Hhour. unfold add_time_of_day in Hr'.
    apply list_elem_of_fmap in Hr' as (r & -> & _).
    destruct (add_time_of_day_row_columns r) as [_ Hbucket].
    rewrite Hbucket, Hhour. simpl. done.
Qed.

(** An incident reported at 05:00 on 1 January 2025. *)
Definition dawn_incident : Incident :=
  mkIncident (Some "THEFT") (Some "2100 BLOCK SHATTUCK AVE") (Some 1735707600000%Z)
    None None None None None None.

Lemma time_of_day_partition_witness :
  (0 <= 5 < 24)%Z ∧ bucket_of_hour 5 = Some Night ∧
  hour <$> add_time_of_day [dawn_incident] = [Some 5%Z] ∧
  ∀ r', r' ∈ add_time_of_day [dawn_incident] → hour r' = Some 5%Z →
        time_of_day r' = Some Night.
Proof.
  assert (Hh : (0 <= 5 < 24)%Z) by lia.
  destruct (time_of_day_partition [dawn_incident] 5 Hh)
    as (_ & _ & _ & _ & _ & H5 & _ & _ & _ & Hrows).
  split; [exact Hh|]. split; [exact H5|]. split; [reflexivity|].
  intros r' Hr' Hhour. apply (Hrows r' Hr' Hhour). lia.
Defined.

(** Every incident with a timestamp gets a bucket. *)
Lemma add_time_of_day_total r ms :
  Occurred_Datetime r = Some ms →
  time_of_day (add_time_of_day_row r) = Some (expected_bucket (dt_hour ms)).
Proof.
  intros H. unfold add_time_of_day_row. simpl. rewrite H. simpl.
  apply bucket_of_hour_expected, dt_hour_range.
Qed.

End TimeBucketsSpec.

Module FiltersSpec.
Import Filters.

Lemma filter_filter_and {A} (p q : A → bool) (l : list A) :
  List.filter p (List.filter q l) = List.filter (λ x, q x && p x) l.
Proof.
  induction l as [|x l IH]; simpl; [done|].
  destruct (q x); simpl; [destruct (p x)|]; by rewrite IH.
Qed.

Lemma filter_ext_bool {A} (p q : A → bool) (l : list A) :
  (∀ x, p x = q x) → List.filter p l = List.filter q l.
Proof. intros E. induction l as [|x l IH]; simpl; [done|]. by rewrite E, IH. Qed.

(** C8. Filtering by type and then by time-of-day gives the same rows as
    filtering by time-of-day and then by type, and both are the rows the
    dashboard's single mask keeps; applying a filter a second time
    changes nothing. *)
Theorem filter_commute_idempotent
    (types : list (option string)) (times : list TimeOfDay) (df : DataFrame) :
  filter_by_time times (filter_by_type types df)
    = filter_by_type types (filter_by_time times df) ∧
  filter_by_time times (filter_by_type types df) = filtered_df types times df ∧
  filter_by_type types (filter_by_type types df) = filter_by_type types df ∧
  filter_by_time times (filter_by_time times df) = filter_by_time times df ∧
  filtered_df types times (filtered_df types times df) = filtered_df types times df.
Proof.
  unfold filter_by_time, filter_by_type, filtered_df.
  rewrite !filter_filter_and.
  repeat split; apply filter_ext_bool; intros x;
    destruct (isin_type types x), (isin_time times x); reflexivity.
Qed.

End FiltersSpec.

Module FetchSpec.
Import Fetch.

Lemma fetch_loop_empty_page service s e fuel offset acc :
  default [] (features (service (mkQuery s e offset batch_size))) = [] →
  fetch_loop service s e (S fuel) offset acc = Some acc.
Proof. intros H. simpl. by rewrite H. Qed.

Lemma frame_of_no_features : frame_of_features [] = Raise (KeyError "Occurred_Datetime").
Proof. reflexivity. Qed.

(** Whenever the first page is empty the function raises. *)
Lemma fetch_empty_range_raises service s e fuel :
  default [] (features (service (mkQuery s e 0 batch_size))) = [] →
  fetch_crime_data service (S fuel) s e = Some (Raise (KeyError "Occurred_Datetime")).
Proof.
  intros H. unfold fetch_crime_data.
  by rewrite (fetch_loop_empty_page _ _ _ _ _ _ H).
Qed.

(** A service with no record in any range. *)
Definition no_records : Service := λ _, mkResponse (Some []).

(** C2. On a range for which the service returns no record the code does
    not return an empty frame: after the loop ends on the empty first
    page, reading the timestamp column of the column-less frame raises
    [KeyError], and the analysis run ends with that exception. *)
Theorem fetch_empty_range_keyerror :
  fetch_crime_data no_records 1 (mkDate 2025 1 1) (mkDate 2025 1 2)
    = Some (Raise (KeyError "Occurred_Datetime")) ∧
  ∀ geocode nearest_edges w,
    Dashboard.run_analysis no_records 1 geocode nearest_edges
      (mkDate 2025 1 1) (mkDate 2025 1 2) w
    = Some (Raise (KeyError "Occurred_Datetime"), w).
Proof. split; reflexivity. Qed.

Lemma to_datetime_in_range cells :
  forallb (λ c, is_ok (to_datetime_ms c)) cells = true →
  to_datetime cells = Ok cells.
Proof.
  induction cells as [|c cells IH]; simpl; [done|].
  intros [Hc Hcs]%andb_prop. rewrite (IH Hcs).
  destruct c as [ms|]; simpl in *; [|done].
  destruct (_ && _); [done|discriminate].
Qed.

Lemma zip_with_fmap_r {A B C} (f : A → B → C) (g : A → B) (l : list A) :
  zip_with f l (g <$> l) = (λ x, f x (g x)) <$> l.
Proof. induction l as [|x l IH]; [done|]. cbn. f_equal. exact IH. Qed.

Lemma existsb_fmap {A B} (p : B → bool) (g : A → B) (l : list A) :
  existsb p (g <$> l) = existsb (λ x, p (g x)) l.
Proof. induction l as [|x l IH]; [done|]. cbn. f_equal. exact IH. Qed.

(** The row the returned frame holds for one feature. *)
Definition incident_of_feature (f : Feature) : Incident :=
  raw_incident (attributes f) (attributes f ≫= attr_Occurred_Datetime).

(** The records carry the requested fields: some feature of the page has
    its attributes, and every timestamp is null or in range. *)
Definition page_has_dates (page : list Feature) : bool :=
  existsb (λ f, bool_decide (is_Some (attributes f))) page
  && forallb (λ f, is_ok (to_datetime_ms (attributes f ≫= attr_Occurred_Datetime))) page.

Lemma frame_of_features_ok page :
  page_has_dates page = true →
  frame_of_features page = Ok (incident_of_feature <$> page).
Proof.
  intros [Hsome Hall]%andb_prop.
  unfold frame_of_features, getitem_Occurred_Datetime, frame_of_records. simpl.
  rewrite existsb_fmap, Hsome. simpl.
  rewrite to_datetime_in_range.
  - simpl. rewrite zip_with_fmap_r, <- list_fmap_compose. done.
  - rewrite <- list_fmap_compose.
    clear Hsome. induction page as [|f page IH]; [done|].
    cbn in *. apply andb_prop in Hall as [Hf Hall].
    rewrite Hf. simpl. by apply IH.
Qed.

(** C6. When the first page holds exactly [batch_size] records (with
    their timestamp field) and the second page is empty, the loop stops
    after the second request with exactly the first page accumulated,
    and the function returns one row per record of that page, in order:
    [batch_size] rows, none duplicated and none dropped. *)
Theorem fetch_single_full_page (service : Service) (s e : Date)
    (page : list Feature) (fuel : nat) :
  features (service (mkQuery s e 0 batch_size)) = Some page →
  Z.of_nat (length page) = batch_size →
  default [] (features (service (mkQuery s e batch_size batch_size))) = [] →
  page_has_dates page = true →
  fetch_loop service s e (2 + fuel) 0 [] = Some page ∧
  fetch_crime_data service (2 + fuel) s e = Some (Ok (incident_of_feature <$> page)) ∧
  Z.of_nat (length (incident_of_feature <$> page)) = batch_size.
Proof.
  intros Hp1 Hlen Hp2 Hdates.
  assert (Hloop : fetch_loop service s e (2 + fuel) 0 [] = Some page).
  { change (2 + fuel) with (S (S fuel)).
    cbn [fetch_loop]. rewrite Hp1. cbn [default].
    destruct page as [|f page']; [discriminate Hlen|].
    change (0 + batch_size)%Z with batch_size.
    rewrite Hp2. reflexivity. }
  split; [exact Hloop|]. split.
  - unfold fetch_crime_data. rewrite Hloop. cbn.
    by rewrite frame_of_features_ok.
  - by rewrite length_fmap.
Qed.

Definition sample_feature : Feature :=
  mkFeature (Some (mkAttributes (Some "THEFT") (Some "2100 BLOCK SHATTUCK AVE")
                     (Some 1735689600000%Z))).

Definition one_page_service : Service :=
  λ q, if (resultOffset q =? 0)%Z
       then mkResponse (Some (replicate 2000 sample_feature))
       else mkResponse (Some []).

Lemma fetch_single_full_page_witness :
  fetch_crime_data one_page_service 2 (mkDate 2025 1 1) (mkDate 2025 1 2)
    = Some (Ok (incident_of_feature <$> replicate 2000 sample_feature)).
Proof.
  apply (fetch_single_full_page one_page_service (mkDate 2025 1 1) (mkDate 2025 1 2)
           (replicate 2000 sample_feature) 0).
  - reflexivity.
  - vm_compute. reflexivity.
  - reflexivity.
  - vm_compute. reflexivity.
Defined.

End FetchSpec.

Section unique_facts.
Context {A : Type} `{EqDecision A}.

Lemma elem_of_filter_bool (p : A → bool) (l : list A) (x : A) :
  x ∈ List.filter p l ↔ x ∈ l ∧ p x = true.
Proof. rewrite !list_elem_of_In. apply filter_In. Qed.

Lemma elem_of_unique (l : list A) (x : A) : x ∈ unique l ↔ x ∈ l.
Proof.
  induction l as [|y l IH]; simpl; [done|].
  rewrite !elem_of_cons, elem_of_filter_bool, IH, bool_decide_eq_true.
  destruct (decide (x = y)); intuition congruence.
Qed.

Lemma NoDup_filter_bool (p : A → bool) (l : list A) :
  NoDup l → NoDup (List.filter p l).
Proof.
  induction 1 as [|x l Hx Hl IH]; simpl; [constructor|].
  destruct (p x); [|done].
  constructor; [|done]. rewrite elem_of_filter_bool. tauto.
Qed.

Lemma NoDup_unique (l : list A) : NoDup (unique l).
Proof.
  induction l as [|y l IH]; simpl; constructor.
  - rewrite elem_of_filter_bool, bool_decide_eq_true. tauto.
  - by apply NoDup_filter_bool.
Qed.

End unique_facts.

Module GeocodeSpec.
Import Geocode.

(** The addresses of the batch that miss the cache, in processing order. *)
Definition misses (cache : Cache) (addresses : list string) : list string :=
  List.filter (λ a, bool_decide (cache !! a = None)) addresses.

(** What the loop leaves under key [b] of the cache. *)
Definition cache_after (geocode : Provider) (cache : Cache)
    (addresses : list string) (b : string) : option (option (Q * Q)) :=
  match cache !! b with
  | Some v => Some v
  | None =>
      if decide (b ∈ addresses) then Some (cache_entry (geocode (query b)))
      else None
  end.

Lemma filter_ext_in {A} (p q : A → bool) (l : list A) :
  (∀ x, x ∈ l → p x = q x) → List.filter p l = List.filter q l.
Proof.
  induction l as [|x l IH]; simpl; [done|]. intros E.
  rewrite (E x) by left. rewrite IH; [done|]. intros y Hy. apply E. by right.
Qed.

Ltac absurd_membership :=
  exfalso;
  repeat match goal with
         | H : _ ∈ _ :: _ |- _ => apply elem_of_cons in H
         | H : _ ∈ [] |- _ => apply elem_of_nil in H
         | H : _ ∉ _ :: _ |- _ => apply not_elem_of_cons in H
         end;
  intuition (subst; try congruence;
             match goal with H : _ ∈ [] |- _ => by apply elem_of_nil in H end).

Lemma loop_body_cache geocode st a b :
  geocode_cache (loop_body geocode st a) !! b
  = cache_after geocode (geocode_cache st) [a] b.
Proof.
  unfold loop_body, cache_after.
  destruct (geocode_cache st !! a) as [v|] eqn:Ha; simpl.
  - destruct (geocode_cache st !! b) as [v'|] eqn:Hb; [done|].
    case_decide as Hin; [|done].
    apply list_elem_of_singleton in Hin as ->. congruence.
  - destruct (decide (a = b)) as [->|Hne].
    + rewrite lookup_insert_eq, Ha. case_decide as Hin; [done|].
      exfalso. apply Hin. by apply list_elem_of_singleton.
    + rewrite lookup_insert_ne by done.
      destruct (geocode_cache st !! b); [done|].
      case_decide as Hin; [|done].
      apply list_elem_of_singleton in Hin. congruence.
Qed.

Lemma loop_body_sent geocode st a :
  sent (loop_body geocode st a) = sent st ++ (query <$> misses (geocode_cache st) [a]).
Proof.
  unfold loop_body, misses. simpl.
  destruct (geocode_cache st !! a) as [v|] eqn:Ha; simpl.
  - by rewrite app_nil_r.
  - done.
Qed.

Lemma loop_body_coords geocode st a b :
  address_coords (loop_body geocode st a) !! b
  = if decide (b = a) then geocode_cache (loop_body geocode st a) !! a
    else address_coords st !! b.
Proof.
  pose proof (loop_body_cache geocode st a a) as Hc.
  unfold loop_body in *. simpl in *.
  case_decide as Hb.
  - subst b.
    destruct (geocode_cache st !! a) as [v|] eqn:Ha; simpl in *.
    + rewrite lookup_insert_eq. rewrite lookup_total_alt, Ha. done.
    + rewrite !lookup_insert_eq. rewrite lookup_total_alt, lookup_insert_eq. done.
  - destruct (geocode_cache st !! a); simpl; by rewrite lookup_insert_ne.
Qed.

(** The state after the loop over a duplicate-free address list. *)
Lemma loop_spec geocode addresses : ∀ st,
  NoDup addresses →
  let st' := fold_left (loop_body geocode) addresses st in
  sent st' = sent st ++ (query <$> misses (geocode_cache st) addresses) ∧
  (∀ b, geocode_cache st' !! b = cache_after geocode (geocode_cache st) addresses b) ∧
  (∀ b, address_coords st' !! b
        = if decide (b ∈ addresses) then geocode_cache st' !! b
          else address_coords st !! b).
Proof.
  induction addresses as [|a addresses IH]; intros st Hnd; cbn [fold_left].
  - unfold misses. cbn [List.filter fmap list_fmap].
    rewrite app_nil_r. split; [done|]. split; intros b.
    + unfold cache_after. destruct (geocode_cache st !! b); [done|].
      case_decide as Hin; [|done]. by apply elem_of_nil in Hin.
    + case_decide as Hin; [|done]. by apply elem_of_nil in Hin.
  - apply NoDup_cons in Hnd as [Ha Hnd].
    destruct (IH (loop_body geocode st a) Hnd) as (Hsent & Hcache & Hcoords).
    assert (Hsame : ∀ b, b ∈ addresses →
              geocode_cache (loop_body geocode st a) !! b = geocode_cache st !! b).
    { intros b Hb. rewrite loop_body_cache. unfold cache_after.
      destruct (geocode_cache st !! b); [done|].
      case_decide as Hin; [|done].
      apply list_elem_of_singleton in Hin. congruence. }
    split; [|split].
    + rewrite Hsent, loop_body_sent, <- app_assoc. f_equal.
      rewrite <- fmap_app. f_equal. unfold misses. cbn [List.filter].
      replace (List.filter (λ a0, bool_decide (geocode_cache (loop_body geocode st a) !! a0 = None)) addresses)
        with (List.filter (λ a0, bool_decide (geocode_cache st !! a0 = None)) addresses).
      2:{ apply filter_ext_in. intros b Hb. by rewrite Hsame. }
      by destruct (bool_decide (geocode_cache st !! a = None)).
    + intros b. rewrite Hcache. unfold cache_after at 1.
      rewrite loop_body_cache. unfold cache_after.
      destruct (geocode_cache st !! b) as [v|] eqn:Hb; [done|].
      repeat case_decide; try done; absurd_membership.
    + intros b. rewrite Hcoords. rewrite loop_body_coords.
      repeat case_decide; try done; try absurd_membership.
      subst b. rewrite Hcache. unfold cache_after.
        destruct (geocode_cache (loop_body geocode st a) !! a) eqn:E; [done|].
        exfalso. rewrite loop_body_cache in E. unfold cache_after in E.
        destruct (geocode_cache st !! a); [done|].
      rewrite decide_True in E by (by apply list_elem_of_singleton). done.
Qed.

Lemma string_length_app (a s : string) :
  String.length (a +:+ s) = String.length a + String.length s.
Proof. induction a as [|c a IH]; simpl; [done|]. by rewrite IH. Qed.

Lemma query_inj : Inj (=) (=) query.
Proof.
  unfold query. intros a. generalize ", Berkeley, CA". intros s.
  induction a as [|c a IH]; intros [|c' b] E; simpl in E.
  - done.
  - apply (f_equal String.length) in E. simpl in E.
    rewrite !string_length_app in E. simpl in E. lia.
  - apply (f_equal String.length) in E. simpl in E.
    rewrite !string_length_app in E. simpl in E. lia.
  - injection E as -> E. f_equal. by apply IH.
Qed.

(** The requests one pass sends, and the cache it writes. *)
Definition issued (geocode : Provider) (df : DataFrame) (w : World) : list string :=
  sent (geocode_loop geocode (default ∅ (cache_file w)) df).

Definition written (geocode : Provider) (df : DataFrame) (w : World) : Cache :=
  geocode_cache (geocode_loop geocode (default ∅ (cache_file w)) df).

Lemma geocode_addresses_world geocode df w :
  (geocode_addresses geocode df w).2
  = {| cache_file := Some (written geocode df w);
       requests := requests w ++ issued geocode df w |}.
Proof. unfold geocode_addresses. by destruct (omap _ df). Qed.

Lemma elem_of_unique_addresses df a :
  a ∈ unique_addresses df ↔ Some a ∈ Block_Address <$> df.
Proof.
  unfold unique_addresses. rewrite elem_of_unique, list_elem_of_omap, list_elem_of_fmap.
  split; intros (r & H1 & H2); exists r; split; done.
Qed.

Lemma issued_spec geocode df w :
  issued geocode df w
  = query <$> misses (default ∅ (cache_file w)) (unique_addresses df).
Proof.
  unfold issued, geocode_loop.
  destruct (loop_spec geocode (unique_addresses df)
              (mkLoop (default ∅ (cache_file w)) ∅ []) (NoDup_unique _)) as (H & _ & _).
  exact H.
Qed.

Lemma written_spec geocode df w b :
  written geocode df w !! b
  = cache_after geocode (default ∅ (cache_file w)) (unique_addresses df) b.
Proof.
  unfold written, geocode_loop.
  destruct (loop_spec geocode (unique_addresses df)
              (mkLoop (default ∅ (cache_file w)) ∅ []) (NoDup_unique _)) as (_ & H & _).
  apply H.
Qed.

Lemma address_coords_spec geocode df w b :
  address_coords (geocode_loop geocode (default ∅ (cache_file w)) df) !! b
  = if decide (b ∈ unique_addresses df) then written geocode df w !! b else None.
Proof.
  unfold written, geocode_loop.
  destruct (loop_spec geocode (unique_addresses df)
              (mkLoop (default ∅ (cache_file w)) ∅ []) (NoDup_unique _)) as (_ & _ & H).
  rewrite H. simpl. by rewrite lookup_empty.
Qed.

Lemma elem_of_misses cache addresses a :
  a ∈ misses cache addresses ↔ a ∈ addresses ∧ cache !! a = None.
Proof. unfold misses. by rewrite elem_of_filter_bool, bool_decide_eq_true. Qed.

Lemma elem_of_issued geocode df w q :
  q ∈ issued geocode df w ↔
  ∃ a, q = query a ∧ Some a ∈ Block_Address <$> df ∧ default ∅ (cache_file w) !! a = None.
Proof.
  rewrite issued_spec, list_elem_of_fmap.
  split; intros (a & -> & Ha); exists a; split; try done.
  - by rewrite <- elem_of_unique_addresses, <- elem_of_misses.
  - by rewrite elem_of_misses, elem_of_unique_addresses.
Qed.

Lemma NoDup_issued geocode df w : NoDup (issued geocode df w).
Proof.
  rewrite issued_spec. apply (NoDup_fmap_2 (Inj0:=query_inj) query).
  apply NoDup_filter_bool, NoDup_unique.
Qed.

(** C5. An address that is a key of the cache when a pass starts, with a
    pair or with the unresolvable marker, is not sent to the provider in
    that pass; and over two passes, the second reading the cache file
    the first wrote, no request occurs twice, so each address is looked
    up at most once. *)
Theorem cached_address_not_requeried (g1 g2 : Provider) (df1 df2 : DataFrame)
    (w : World) (a : string) :
  let w1 := (geocode_addresses g1 df1 w).2 in
  let w2 := (geocode_addresses g2 df2 w1).2 in
  (is_Some (default ∅ (cache_file w) !! a) → query a ∉ issued g1 df1 w) ∧
  requests w2 = requests w ++ (issued g1 df1 w ++ issued g2 df2 w1) ∧
  NoDup (issued g1 df1 w ++ issued g2 df2 w1) ∧
  count_occ string_dec (issued g1 df1 w ++ issued g2 df2 w1) (query a) ≤ 1.
Proof.
  intros w1 w2.
  assert (Hnd : NoDup (issued g1 df1 w ++ issued g2 df2 w1)).
  { apply NoDup_app. split; [apply NoDup_issued|]. split; [|apply NoDup_issued].
    intros q (b & -> & Hb & Hmiss)%elem_of_issued (b' & E & _ & Hmiss')%elem_of_issued.
    apply query_inj in E as <-.
    subst w1. rewrite geocode_addresses_world in Hmiss'. simpl in Hmiss'.
    rewrite written_spec in Hmiss'. unfold cache_after in Hmiss'.
    rewrite Hmiss in Hmiss'.
    rewrite decide_True in Hmiss' by (by apply elem_of_unique_addresses).
    done. }
  split; [|split; [|split]].
  - intros [v Hv] (b & E & _ & Hmiss)%elem_of_issued.
    apply query_inj in E as <-. congruence.
  - subst w2 w1. rewrite !geocode_addresses_world. simpl. by rewrite app_assoc.
  - exact Hnd.
  - apply (proj1 (NoDup_count_occ string_dec _)). by apply NoDup_ListNoDup.
Qed.

(** The frame the pass builds is the join of the rows with the written
    cache. *)
Lemma geocoded_row_written geocode df w r :
  r ∈ df →
  geocoded_row (address_coords (geocode_loop geocode (default ∅ (cache_file w)) df)) r
  = geocoded_row (written geocode df w) r.
Proof.
  intros Hr. unfold geocoded_row, map_coords.
  destruct (Block_Address r) as [a|] eqn:Ha; [|done]. simpl.
  rewrite address_coords_spec, decide_True; [done|].
  apply elem_of_unique_addresses, list_elem_of_fmap. by exists r.
Qed.

Lemma omap_ext_in {A B} (f g : A → option B) (l : list A) :
  (∀ x, x ∈ l → f x = g x) → omap f l = omap g l.
Proof.
  induction l as [|x l IH]; intros E; [done|]. cbn.
  rewrite (E x) by left. rewrite IH; [done|]. intros y Hy. apply E. by right.
Qed.

Definition joined (geocode : Provider) (df : DataFrame) (w : World) : DataFrame :=
  omap (geocoded_row (written geocode df w)) df.

Lemma geocode_addresses_result geocode df w :
  (geocode_addresses geocode df w).1
  = match joined geocode df w with
    | [] => Raise (ValueError "Columns must be same length as key")
    | out => Ok out
    end.
Proof.
  unfold geocode_addresses, joined.
  rewrite (omap_ext_in _ (geocoded_row (written geocode df w)))
    by (intros; by apply geocoded_row_written).
  by destruct (omap _ df).
Qed.

(** C7. When the lookup of an address of the batch raises, the pass
    still ends with the cache file written: the address is stored there
    as unresolvable, every other address of the batch has its own entry
    (the cached one, or the outcome of its own lookup), and every row
    whose address resolved is in the returned frame.  The lookup's
    exception never reaches the caller; the only exception the pass can
    end with is the [ValueError] of a frame in which no row resolved. *)
Theorem failed_lookup_is_contained (geocode : Provider) (df : DataFrame)
    (w : World) (a : string) :
  Some a ∈ Block_Address <$> df →
  default ∅ (cache_file w) !! a = None →
  geocode (query a) = Failed →
  let res := geocode_addresses geocode df w in
  cache_file res.2 = Some (written geocode df w) ∧
  written geocode df w !! a = Some None ∧
  (∀ b, Some b ∈ Block_Address <$> df →
     written geocode df w !! b
     = Some (match default ∅ (cache_file w) !! b with
             | Some v => v
             | None => cache_entry (geocode (query b))
             end)) ∧
  (∀ r b c, r ∈ df → Block_Address r = Some b →
     written geocode df w !! b = Some (Some c) →
     ∃ out r', res.1 = Ok out ∧ r' ∈ out ∧
       geocoded_row (written geocode df w) r = Some r' ∧
       Block_Address r' = Some b ∧ coords r' = Some c) ∧
  (∀ e, res.1 = Raise e →
     e = ValueError "Columns must be same length as key" ∧
     ∀ r, r ∈ df → map_coords (written geocode df w) r = None).
Proof.
  intros Ha Hmiss Hfail res.
  assert (Hall : ∀ b, Some b ∈ Block_Address <$> df →
            written geocode df w !! b
            = Some (match default ∅ (cache_file w) !! b with
                    | Some v => v
                    | None => cache_entry (geocode (query b))
                    end)).
  { intros b Hb. rewrite written_spec. unfold cache_after.
    destruct (default ∅ (cache_file w) !! b); [done|].
    by rewrite decide_True by (by apply elem_of_unique_addresses). }
  split; [|split; [|split; [|split]]].
  - subst res. by rewrite geocode_addresses_world.
  - rewrite (Hall a Ha), Hmiss, Hfail. done.
  - exact Hall.
  - intros r b c Hr Hb Hc.
    set (r' := {| Incident_Type := Incident_Type r;
                  Block_Address := Block_Address r;
                  Occurred_Datetime := Occurred_Datetime r;
                  coords := Some c; latitude := Some (fst c);
                  longitude := Some (snd c);
                  hour := hour r; time_of_day := time_of_day r; edge := edge r |}).
    assert (Hrow : geocoded_row (written geocode df w) r = Some r').
    { unfold geocoded_row, map_coords. rewrite Hb. simpl. rewrite Hc. simpl.
      subst r'. by rewrite Hb. }
    assert (Hin : r' ∈ joined geocode df w).
    { apply list_elem_of_omap. by exists r. }
    subst res. rewrite geocode_addresses_result.
    destruct (joined geocode df w) as [|x out] eqn:E.
    + by apply elem_of_nil in Hin.
    + exists (x :: out), r'. repeat split; done.
  - intros e He. subst res. rewrite geocode_addresses_result in He.
    destruct (joined geocode df w) as [|x out] eqn:E; [|discriminate].
    injection He as <-. split; [done|].
    intros r Hr. destruct (map_coords (written geocode df w) r) as [c|] eqn:Hc; [|done].
    exfalso. assert (Hin : ∃ r', r' ∈ joined geocode df w).
    { unfold joined. eexists. apply list_elem_of_omap. exists r. split; [done|].
      unfold geocoded_row. rewrite Hc. done. }
    destruct Hin as [r' Hin]. rewrite E in Hin. by apply elem_of_nil in Hin.
Qed.

Definition sample_row (address : option string) : Incident :=
  mkIncident (Some "THEFT") address (Some 1735689600000%Z)
    None None None None None None.

Definition sample_provider : Provider :=
  λ q, if String.eqb q "1 A ST, Berkeley, CA" then Failed
       else Located (3787 # 100) (- 12227 # 100).

Definition sample_df : DataFrame :=
  [sample_row (Some "1 A ST"); sample_row None; sample_row (Some "2 B ST")].

Lemma failed_lookup_is_contained_witness :
  written sample_provider sample_df (mkWorld None []) !! "1 A ST" = Some None.
Proof.
  assert (Hin : Some "1 A ST" ∈ Block_Address <$> sample_df)
    by (vm_compute; apply list_elem_of_here).
  exact (proj1 (proj2 (failed_lookup_is_contained sample_provider sample_df
                         (mkWorld None []) "1 A ST" Hin eq_refl eq_refl))).
Defined.

Example sample_pass_requests :
  issued sample_provider sample_df (mkWorld None [])
  = ["1 A ST, Berkeley, CA"; "2 B ST, Berkeley, CA"].
Proof. vm_compute. reflexivity. Qed.

Example sample_pass_rows :
  Block_Address <$> joined sample_provider sample_df (mkWorld None []) = [Some "2 B ST"].
Proof. vm_compute. reflexivity. Qed.

Example second_pass_sends_nothing :
  issued sample_provider sample_df
    (geocode_addresses sample_provider sample_df (mkWorld None [])).2 = [].
Proof. vm_compute. reflexivity. Qed.

Example nothing_resolved_raises :
  (geocode_addresses (λ _, Failed) sample_df (mkWorld None [])).1
  = Raise (ValueError "Columns must be same length as key").
Proof. vm_compute. reflexivity. Qed.

(** A cache file that already marks the first address as unresolvable. *)
Definition sample_world : World :=
  mkWorld (Some {[ "1 A ST" := None ]}) [].

Lemma cached_address_not_requeried_witness :
  query "1 A ST" ∉ issued sample_provider sample_df sample_world.
Proof.
  assert (Hhit : is_Some (default ∅ (cache_file sample_world) !! "1 A ST"))
    by (exists None; reflexivity).
  exact (proj1 (cached_address_not_requeried sample_provider sample_provider
                  sample_df sample_df sample_world "1 A ST") Hhit).
Defined.

Definition has_address (r : Incident) : bool := bool_decide (is_Some (Block_Address r)).

Lemma omap_filter_some {A B} (f : A → option B) (p : A → bool) (l : list A) :
  (∀ x, p x = false → f x = None) → omap f (List.filter p l) = omap f l.
Proof.
  intros E. induction l as [|x l IH]; [done|]. cbn.
  destruct (p x) eqn:Hp; cbn; rewrite IH; [done|]. by rewrite (E x Hp).
Qed.

Lemma has_address_false r : has_address r = false → Block_Address r = None.
Proof.
  unfold has_address. intros H%bool_decide_eq_false.
  destruct (Block_Address r); [|done]. exfalso. apply H. eauto.
Qed.

(** C10. Rows with a null address have no effect on a pass: the result
    and the world are those of the frame without them.  Every row of a
    returned frame has an address, every request sent is the query of a
    non-null address of some row, and every key of the written cache
    either was in the cache before or is such an address. *)
Theorem null_address_rows_dropped (geocode : Provider) (df : DataFrame) (w : World) :
  geocode_addresses geocode (List.filter has_address df) w
    = geocode_addresses geocode df w ∧
  (∀ out r, (geocode_addresses geocode df w).1 = Ok out → r ∈ out →
     ∃ a r0, Block_Address r = Some a ∧ r0 ∈ df ∧ Block_Address r0 = Some a) ∧
  (∀ q, q ∈ issued geocode df w →
     ∃ a, q = query a ∧ Some a ∈ Block_Address <$> df) ∧
  (∀ b, is_Some (written geocode df w !! b) →
     is_Some (default ∅ (cache_file w) !! b) ∨ Some b ∈ Block_Address <$> df).
Proof.
  split; [|split; [|split]].
  - assert (Hu : unique_addresses (List.filter has_address df) = unique_addresses df).
    { unfold unique_addresses. f_equal. apply omap_filter_some, has_address_false. }
    unfold geocode_addresses, geocode_loop. rewrite Hu.
    rewrite omap_filter_some; [done|].
    intros r Hr%has_address_false. unfold geocoded_row, map_coords. by rewrite Hr.
  - intros out r Hres Hr. rewrite geocode_addresses_result in Hres.
    assert (Hin : r ∈ joined geocode df w).
    { destruct (joined geocode df w); [discriminate|]. by injection Hres as <-. }
    apply list_elem_of_omap in Hin as (r0 & Hr0 & Hrow).
    unfold geocoded_row, map_coords in Hrow.
    destruct (Block_Address r0) as [a|] eqn:Ha; [|discriminate]. simpl in Hrow.
    destruct (mjoin (written geocode df w !! a)); [|discriminate].
    injection Hrow as <-. exists a, r0. simpl. done.
  - intros q (a & -> & Ha & _)%elem_of_issued. eauto.
  - intros b. rewrite written_spec. unfold cache_after.
    destruct (default ∅ (cache_file w) !! b) as [v|]; [eauto|].
    case_decide as Hin; [|by intros [? ?]].
    intros _. right. by apply elem_of_unique_addresses.
Qed.

Lemma null_address_rows_dropped_witness :
  geocode_addresses sample_provider (List.filter has_address sample_df) (mkWorld None [])
  = geocode_addresses sample_provider sample_df (mkWorld None []).
Proof.
  exact (proj1 (null_address_rows_dropped sample_provider sample_df (mkWorld None []))).
Defined.

End GeocodeSpec.

Module QuantileSpec.
Import Quantile.

Lemma sort_sorted l : StronglySorted Z.le (sort l).
Proof. apply (StronglySorted_merge_sort Z.le). Qed.

Lemma sort_perm l : sort l ≡ₚ l.
Proof. apply (merge_sort_Permutation Z.le). Qed.

Lemma length_sort l : length (sort l) = length l.
Proof. by rewrite sort_perm. Qed.

Lemma nth_elem_of {A} (l : list A) (i : nat) (d : A) :
  i < length l → nth i l d ∈ l.
Proof. intros H. by apply list_elem_of_In, nth_In. Qed.

Lemma sorted_nth (l : list Z) :
  StronglySorted Z.le l →
  ∀ i j, i ≤ j → j < length l → (nth i l 0 <= nth j l 0)%Z.
Proof.
  induction 1 as [|x l Hl IH Hx]; intros i j Hij Hj; simpl in Hj; [lia|].
  destruct j as [|j]; [replace i with 0 by lia; simpl; lia|].
  destruct i as [|i]; simpl.
  - rewrite Forall_forall in Hx. apply Hx, nth_elem_of. lia.
  - apply IH; lia.
Qed.

(** Where the interpolation reads the sorted sample. *)
Record position (n : nat) (q : Q) := mkPosition {
  pos_lo : Z;
  pos_hi : Z;
  pos_frac : Q
}.
Arguments pos_lo {n q}. Arguments pos_hi {n q}. Arguments pos_frac {n q}.

Definition position_of (n : nat) (q : Q) : position n q :=
  let last := (Z.of_nat n - 1)%Z in
  let h := (inject_Z last * q)%Q in
  {| pos_lo := Qfloor h;
     pos_hi := Z.min (Qfloor h + 1) last;
     pos_frac := (h - inject_Z (Qfloor h))%Q |}.

Lemma quantile_unfold values q :
  quantile values q
  = let p := position_of (length values) q in
    (inject_Z (nth (Z.to_nat (pos_lo p)) (sort values) 0%Z)
     + (inject_Z (nth (Z.to_nat (pos_hi p)) (sort values) 0%Z)
        - inject_Z (nth (Z.to_nat (pos_lo p)) (sort values) 0%Z)) * pos_frac p)%Q.
Proof. reflexivity. Qed.

Lemma scale_bounds (a q : Q) :
  (0 <= a)%Q → (0 <= q)%Q → (q <= 1)%Q → (0 <= a * q)%Q ∧ (a * q <= a)%Q.
Proof. intros. split; nra. Qed.

Lemma scale_mono (a q1 q2 : Q) :
  (0 <= a)%Q → (q1 <= q2)%Q → (a * q1 <= a * q2)%Q.
Proof. intros. nra. Qed.

Lemma lerp_mono (a b g1 g2 : Q) :
  (a <= b)%Q → (g1 <= g2)%Q → (a + (b - a) * g1 <= a + (b - a) * g2)%Q.
Proof. intros. nra. Qed.

Lemma lerp_chain (a1 b1 a2 b2 g1 g2 : Q) :
  (a1 <= b1)%Q → (b1 <= a2)%Q → (a2 <= b2)%Q →
  (g1 < 1)%Q → (0 <= g2)%Q →
  (a1 + (b1 - a1) * g1 <= a2 + (b2 - a2) * g2)%Q.
Proof. intros. nra. Qed.

Lemma position_bounds (n : nat) (q : Q) :
  0 < n → (0 <= q)%Q → (q <= 1)%Q →
  let p := position_of n q in
  (0 <= pos_lo p)%Z ∧ (pos_lo p <= pos_hi p)%Z ∧ (pos_hi p < Z.of_nat n)%Z ∧
  (pos_hi p <= pos_lo p + 1)%Z ∧
  (0 <= pos_frac p)%Q ∧ (pos_frac p < 1)%Q.
Proof.
  intros Hn Hq0 Hq1. unfold position_of. cbn [pos_lo pos_hi pos_frac].
  assert (Hlast : (0 <= inject_Z (Z.of_nat n - 1))%Q).
  { change 0%Q with (inject_Z 0). rewrite <- Zle_Qle. lia. }
  destruct (scale_bounds _ q Hlast Hq0 Hq1) as [Hh0 Hh1].
  apply Qfloor_resp_le in Hh0, Hh1. rewrite Qfloor_Z in Hh1.
  change (Qfloor 0) with 0%Z in Hh0.
  pose proof (Qfloor_le (inject_Z (Z.of_nat n - 1) * q)) as Hfl.
  pose proof (Qlt_floor (inject_Z (Z.of_nat n - 1) * q)) as Hfu.
  rewrite inject_Z_plus in Hfu. change (inject_Z 1) with 1%Q in Hfu.
  repeat split; try lia; lra.
Qed.

(** The quantile of a sample whose values are all [c] is [c]. *)
Lemma quantile_constant (values : list Z) (c : Z) (q : Q) :
  values ≠ [] → Forall (λ v, v = c) values → (0 <= q)%Q → (q <= 1)%Q →
  (quantile values q == inject_Z c)%Q.
Proof.
  intros Hne Hall Hq0 Hq1. rewrite quantile_unfold.
  assert (Hn : 0 < length values) by (destruct values; [done|simpl; lia]).
  destruct (position_bounds (length values) q Hn Hq0 Hq1) as (H1 & H2 & H3 & _).
  set (p := position_of (length values) q) in *. cbv zeta.
  assert (Hs : Forall (λ v, v = c) (sort values)) by (by rewrite sort_perm).
  rewrite Forall_forall in Hs.
  rewrite (Hs (nth (Z.to_nat (pos_lo p)) (sort values) 0%Z))
    by (apply nth_elem_of; rewrite length_sort; lia).
  rewrite (Hs (nth (Z.to_nat (pos_hi p)) (sort values) 0%Z))
    by (apply nth_elem_of; rewrite length_sort; lia).
  ring.
Qed.

(** The quantile grows with its level. *)
Lemma quantile_mono (values : list Z) (q1 q2 : Q) :
  values ≠ [] → (0 <= q1)%Q → (q1 <= q2)%Q → (q2 <= 1)%Q →
  (quantile values q1 <= quantile values q2)%Q.
Proof.
  intros Hne Hq0 Hq12 Hq1. rewrite !quantile_unfold.
  assert (Hn : 0 < length values) by (destruct values; [done|simpl; lia]).
  assert (Hq1' : (q1 <= 1)%Q) by lra.
  assert (Hq2' : (0 <= q2)%Q) by lra.
  destruct (position_bounds (length values) q1 Hn Hq0 Hq1')
    as (A1 & A2 & A3 & A4 & A5 & A6).
  destruct (position_bounds (length values) q2 Hn Hq2' Hq1)
    as (B1 & B2 & B3 & B4 & B5 & B6).
  assert (Hlast : (0 <= inject_Z (Z.of_nat (length values) - 1))%Q).
  { change 0%Q with (inject_Z 0). rewrite <- Zle_Qle. lia. }
  pose proof (scale_mono _ q1 q2 Hlast Hq12) as Hh.
  assert (Hlo : (pos_lo (position_of (length values) q1)
                 <= pos_lo (position_of (length values) q2))%Z)
    by (by apply Qfloor_resp_le).
  assert (Hnth : ∀ i j, (0 <= i)%Z → (i <= j)%Z → (j < Z.of_nat (length values))%Z →
            (inject_Z (nth (Z.to_nat i) (sort values) 0%Z)
             <= inject_Z (nth (Z.to_nat j) (sort values) 0%Z))%Q).
  { intros i j Hi Hij Hj. rewrite <- Zle_Qle.
    apply sorted_nth; [apply sort_sorted| |rewrite length_sort]; lia. }
  set (p1 := position_of (length values) q1) in *.
  set (p2 := position_of (length values) q2) in *. cbv zeta.
  pose proof (Hnth _ _ A1 A2 A3) as Hab1.
  pose proof (Hnth _ _ B1 B2 B3) as Hab2.
  destruct (Z.eq_dec (pos_lo p1) (pos_lo p2)) as [Heq|Hneq].
  - assert (Hhi : pos_hi p1 = pos_hi p2).
    { subst p1 p2. unfold position_of in *. cbn [pos_lo pos_hi pos_frac] in *.
      by rewrite Heq. }
    assert (Hfrac : (pos_frac p1 <= pos_frac p2)%Q).
    { subst p1 p2. unfold position_of in *. cbn [pos_lo pos_hi pos_frac] in *.
      rewrite Heq. lra. }
    rewrite Heq, Hhi. by apply lerp_mono.
  - assert (Hmid : (pos_hi p1 <= pos_lo p2)%Z) by lia.
    assert (B2' : (pos_lo p2 < Z.of_nat (length values))%Z) by lia.
    assert (A0 : (0 <= pos_hi p1)%Z) by lia.
    pose proof (Hnth _ _ A0 Hmid B2') as Hm.
    by apply lerp_chain.
Qed.

End QuantileSpec.

Module ColorsSpec.
Import Quantile Colors QuantileSpec.

(** The filtered count map {A:1, B:2, B2:10}. *)
Definition abc : list (Edge * Z) :=
  [((1, 2, 0), 1); ((2, 3, 0), 2); ((3, 4, 0), 10)]%Z.

Definition single : list (Edge * Z) := [((1, 2, 0), 3)]%Z.

Example abc_breaks :
  Qred <$> classify_counts abc = [7 # 5; 9 # 5; 18 # 5; 34 # 5; 10 # 1]%Q.
Proof. vm_compute. reflexivity. Qed.

Example abc_colors :
  edge_colors abc
  = [((1, 2, 0)%Z, Ok "#85144b"); ((2, 3, 0)%Z, Ok "#FFDC00"); ((3, 4, 0)%Z, Ok "#85144b")].
Proof. vm_compute. reflexivity. Qed.

Definition top_color : string := "#85144b".
Definition bottom_color : string := "#2ECC40".

(** C3, as stated, fails on the code.  In the map {A:1, B:2, B2:10} the
    minimum count 1 lies below the first breakpoint 1.4, no interval holds
    it, and it falls through to the last color of the palette, the top
    tier, not the bottom one; and the single-valued map {A:3} yields the
    breakpoint list [3], not the empty one, and its edge gets the top tier,
    not the "no data" color. *)
Lemma minimum_and_single_value_in_top_tier :
  get_color_for_count 1 (classify_counts abc) = Ok top_color ∧
  get_color_for_count 1 (classify_counts abc) ≠ Ok bottom_color ∧
  Qred <$> classify_counts single = [3 # 1]%Q ∧
  classify_counts single ≠ [] ∧
  edge_colors single = [((1, 2, 0)%Z, Ok top_color)] ∧
  edge_colors single ≠ [((1, 2, 0)%Z, Ok no_data_color)].
Proof.
  repeat split; try (vm_compute; reflexivity); vm_compute; discriminate.
Qed.

Lemma insert_sortedQ_Forall (P : Q → Prop) x l :
  P x → Forall P l → Forall P (insert_sortedQ x l).
Proof.
  intros Hx. induction 1 as [|y l Hy Hl IH]; simpl.
  - by repeat constructor.
  - destruct (Qle_bool x y); repeat constructor; done.
Qed.

Lemma sortedQ_Forall (P : Q → Prop) l :
  Forall P l → Forall P (foldr insert_sortedQ [] l).
Proof.
  induction 1 as [|y l Hy Hl IH]; simpl; [constructor|].
  by apply insert_sortedQ_Forall.
Qed.

Lemma insert_sortedQ_length x l : length (insert_sortedQ x l) = S (length l).
Proof.
  induction l as [|y l IH]; simpl; [done|].
  destruct (Qle_bool x y); simpl; by rewrite ?IH.
Qed.

Lemma sortedQ_length l : length (foldr insert_sortedQ [] l) = length l.
Proof.
  induction l as [|y l IH]; simpl; [done|]. by rewrite insert_sortedQ_length, IH.
Qed.

Lemma dedup_constant (c : Q) (l : list Q) :
  l ≠ [] → Forall (λ x, x == c)%Q l →
  ∃ b, dedup_sorted l = [b] ∧ (b == c)%Q.
Proof.
  induction l as [|x l IH]; intros Hne Hall; [done|].
  apply Forall_cons in Hall as [Hx Hl].
  destruct l as [|y l'].
  - exists x. by split.
  - cbn [dedup_sorted].
    assert (Hy : (y == c)%Q) by (by apply Forall_cons in Hl as [? _]).
    assert (Hxy : Qeq_bool x y = true) by (apply Qeq_bool_iff; by rewrite Hx, Hy).
    rewrite Hxy. by apply IH.
Qed.

(** A non-empty map whose counts are all [c] has the one breakpoint [c]. *)
Lemma classify_counts_constant (counts : list (Edge * Z)) (c : Z) :
  counts ≠ [] → Forall (λ ec, ec.2 = c) counts →
  ∃ b, classify_counts counts = [b] ∧ (b == inject_Z c)%Q.
Proof.
  intros Hne Hall. destruct counts as [|ec counts']; [done|].
  cbn [classify_counts]. set (counts := ec :: counts') in *.
  assert (Hv : Forall (λ v, v = c) (snd <$> counts)) by (by apply Forall_fmap).
  assert (Hvne : snd <$> counts ≠ []) by done.
  apply dedup_constant.
  - intros E. apply (f_equal length) in E.
    rewrite sortedQ_length in E. discriminate E.
  - apply sortedQ_Forall. unfold percentiles.
    cbn [fmap list_fmap].
    repeat (apply Forall_cons_2;
            [apply quantile_constant; [done|done|by vm_compute|by vm_compute]|]).
    apply Forall_nil_2.
Qed.

(** C3, amended.  For the map {A:1, B:2, B2:10} the breakpoints are
    1.4, 1.8, 3.6, 6.8 and 10 and the maximum count is in the top tier.
    For the empty map there are no breakpoints and the color is the
    neutral "no data" one.  A non-empty map with a single count value has
    exactly one breakpoint, that value, and all its edges get the top
    tier. *)
Theorem color_tiers :
  (Qred <$> classify_counts abc = [7 # 5; 9 # 5; 18 # 5; 34 # 5; 10 # 1]%Q ∧
   get_color_for_count 10 (classify_counts abc) = Ok top_color ∧
   List.last color_palette no_data_color = top_color) ∧
  (classify_counts [] = [] ∧ edge_colors [] = [] ∧
   ∀ count, get_color_for_count count (classify_counts []) = Ok no_data_color) ∧
  (∀ (counts : list (Edge * Z)) (c : Z),
     counts ≠ [] → Forall (λ ec, ec.2 = c) counts →
     (∃ b, classify_counts counts = [b] ∧ (b == inject_Z c)%Q) ∧
     ∀ e col, (e, col) ∈ edge_colors counts → col = Ok top_color).
Proof.
  split; [|split].
  - repeat split; vm_compute; reflexivity.
  - repeat split.
  - intros counts c Hne Hall.
    destruct (classify_counts_constant counts c Hne Hall) as (b & Hb & Hbc).
    split; [by exists b|].
    intros e col Hin. unfold edge_colors in Hin. rewrite Hb in Hin.
    apply list_elem_of_fmap in Hin as ([e' k] & Heq & _).
    injection Heq as -> ->. reflexivity.
Qed.

Lemma color_tiers_witness :
  ∃ b, classify_counts single = [b] ∧ (b == inject_Z 3)%Q.
Proof.
  assert (Hne : single ≠ []) by discriminate.
  assert (Hall : Forall (λ ec : Edge * Z, ec.2 = 3%Z) single)
    by (apply Forall_cons_2; [reflexivity|apply Forall_nil_2]).
  exact (proj1 (proj2 (proj2 color_tiers) single 3%Z Hne Hall)).
Defined.

End ColorsSpec.

Module SafetyScoreSpec.
Import Quantile SafetyScore QuantileSpec.

Local Open Scope R_scope.

Lemma rint_near (x : R) : IZR (rint x) - 1 / 2 <= x <= IZR (rint x) + 1 / 2.
Proof.
  unfold rint. destruct (base_Int_part x) as [Hlo Hhi].
  set (f := Int_part x) in *.
  destruct (Rlt_dec (x - IZR f) (1 / 2)) as [Hd|Hd].
  - lra.
  - destruct (Rlt_dec (1 / 2) (x - IZR f)) as [Hd'|Hd'].
    + rewrite plus_IZR. lra.
    + destruct (Z.even f); [|rewrite plus_IZR]; lra.
Qed.

Lemma rint_mono (x y : R) : x <= y → (rint x <= rint y)%Z.
Proof.
  intros Hxy. destruct (Z.le_gt_cases (rint x) (rint y)) as [H|H]; [done|].
  exfalso.
  assert (Hz : (rint y + 1 <= rint x)%Z) by lia.
  apply IZR_le in Hz. rewrite plus_IZR in Hz.
  pose proof (rint_near x) as Hx. pose proof (rint_near y) as Hy.
  assert (E : x = y) by lra.
  rewrite E in H. lia.
Qed.

Lemma round1_mono (x y : R) : x <= y → round1 x <= round1 y.
Proof.
  intros Hxy. unfold round1.
  assert (H : (rint (x * 10) <= rint (y * 10))%Z) by (apply rint_mono; lra).
  apply IZR_le in H. lra.
Qed.

Lemma clip_mono (lower upper x y : R) : x <= y → clip lower upper x <= clip lower upper y.
Proof.
  intros Hxy. unfold clip.
  pose proof (Rmin_l upper (Rmax lower x)). pose proof (Rmin_r upper (Rmax lower x)).
  pose proof (Rmax_l lower y). pose proof (Rmax_r lower y).
  apply Rmin_glb; [lra|].
  apply Rle_trans with (Rmax lower x); [lra|]. apply Rmax_lub; lra.
Qed.

Lemma clip_bounds (lower upper x : R) :
  lower <= upper → lower <= clip lower upper x <= upper.
Proof.
  intros Hlu. unfold clip. split.
  - apply Rmin_glb; [lra|apply Rmax_l].
  - apply Rmin_l.
Qed.

(** The logistic curve, inverted: decreasing in the scaled count. *)
Lemma logistic_antitone (s1 s2 : R) :
  s1 <= s2 →
  10 * (1 - 1 / (1 + exp (- 3 * s2))) <= 10 * (1 - 1 / (1 + exp (- 3 * s1))).
Proof.
  intros Hs.
  assert (He : exp (- 3 * s2) <= exp (- 3 * s1)).
  { destruct Hs as [Hlt | Heq]; [|rewrite Heq; lra]. left. apply exp_increasing. lra. }
  pose proof (exp_pos (- 3 * s1)) as H1. pose proof (exp_pos (- 3 * s2)) as H2.
  assert (Hinv : / (1 + exp (- 3 * s1)) <= / (1 + exp (- 3 * s2))).
  { apply Rinv_le_contravar; lra. }
  unfold Rdiv. lra.
Qed.

Lemma scaled_mono (p50 p95 : Q) (a b : Z) :
  (p50 <= p95)%Q → (a <= b)%Z →
  (((Qmin (inject_Z a) p95 - p50) / (p95 - p50 + (1 # 1000000000)))
   <= ((Qmin (inject_Z b) p95 - p50) / (p95 - p50 + (1 # 1000000000))))%Q.
Proof.
  intros Hp Hab.
  assert (Hx : (Qmin (inject_Z a) p95 <= Qmin (inject_Z b) p95)%Q).
  { apply Q.min_le_compat_r. by rewrite <- Zle_Qle. }
  assert (Hd : (0 < p95 - p50 + (1 # 1000000000))%Q).
  { assert (0 < 1 # 1000000000)%Q by reflexivity. lra. }
  unfold Qdiv. apply Qmult_le_compat_r.
  - lra.
  - apply Qlt_le_weak, Qinv_lt_0_compat, Hd.
Qed.

Lemma density_score_antitone (p50 p95 : Q) (a b : Z) :
  (p50 <= p95)%Q → (a <= b)%Z →
  density_score p50 p95 b <= density_score p50 p95 a.
Proof.
  intros Hp Hab. unfold density_score.
  apply clip_mono, round1_mono, logistic_antitone, Qle_Rle, scaled_mono; done.
Qed.

Lemma density_score_bounds (p50 p95 : Q) (c : Z) :
  1 / 2 <= density_score p50 p95 c <= 19 / 2.
Proof. unfold density_score. apply clip_bounds. lra. Qed.

(** C9. Within one distribution, an edge with a count at most that of
    another gets a score at least as high, and every score returned lies
    between 0.5 and 9.5. *)
Theorem density_scores_antitone_bounded (crime_counts : list Z) (i j : nat) (a b : Z) :
  crime_counts !! i = Some a →
  crime_counts !! j = Some b →
  (a <= b)%Z →
  (∃ sa sb,
     calculate_crime_density_scores crime_counts !! i = Some sa ∧
     calculate_crime_density_scores crime_counts !! j = Some sb ∧
     sb <= sa) ∧
  Forall (λ s, 1 / 2 <= s <= 19 / 2) (calculate_crime_density_scores crime_counts).
Proof.
  intros Hi Hj Hab. unfold calculate_crime_density_scores.
  set (p50 := quantile crime_counts (50 # 100)).
  set (p95 := quantile crime_counts (95 # 100)).
  assert (Hne : crime_counts ≠ []) by (intros ->; discriminate Hi).
  assert (Hp : (p50 <= p95)%Q).
  { apply quantile_mono; try done; by vm_compute. }
  split.
  - exists (density_score p50 p95 a), (density_score p50 p95 b).
    rewrite !list_lookup_fmap, Hi, Hj. repeat split; try done.
    by apply density_score_antitone.
  - apply Forall_fmap, Forall_forall. intros c _. apply density_score_bounds.
Qed.

Lemma density_scores_antitone_bounded_witness :
  ∃ sa sb,
    calculate_crime_density_scores [1; 2; 10]%Z !! 0%nat = Some sa ∧
    calculate_crime_density_scores [1; 2; 10]%Z !! 2%nat = Some sb ∧
    sb <= sa.
Proof.
  apply (density_scores_antitone_bounded [1; 2; 10]%Z 0 2 1 10).
  - reflexivity.
  - reflexivity.
  - lia.
Defined.

Lemma sum_constant (scores : list R) (c : R) :
  Forall (λ x, x = c) scores → sum scores = INR (length scores) * c.
Proof.
  induction 1 as [|x l -> Hl IH].
  - simpl. lra.
  - cbn [sum length]. rewrite IH, S_INR. lra.
Qed.

Lemma sum_zero (l : list R) : Forall (λ x, x = 0) l → sum l = 0.
Proof. intros H. rewrite (sum_constant l 0 H). lra. Qed.

Lemma mean_constant (scores : list R) (c : R) :
  scores ≠ [] → Forall (λ x, x = c) scores → mean scores = c.
Proof.
  intros Hne Hall. unfold mean. rewrite (sum_constant scores c Hall).
  assert (INR (length scores) <> 0).
  { apply not_0_INR. destruct scores; [done|discriminate]. }
  by field.
Qed.

Lemma std_constant (scores : list R) (c : R) :
  Forall (λ x, x = c) scores → std scores = NaN ∨ std scores = Finite 0.
Proof.
  intros Hall. destruct scores as [|x [|y l]]; [by left|by left|right].
  unfold std. set (l2 := x :: y :: l) in *.
  rewrite (mean_constant l2 c) by done.
  rewrite sum_zero.
  - unfold Rdiv. by rewrite Rmult_0_l, sqrt_0.
  - apply Forall_fmap. eapply Forall_impl; [exact Hall|].
    intros z ->. simpl. lra.
Qed.

(** With identical scores on every street the deviation is zero (or
    undefined for a single street) and the division yields NaN. *)
Lemma renormalize_constant (scores : list R) (c : R) :
  scores ≠ [] → Forall (λ x, x = c) scores →
  renormalize scores = replicate (length scores) NaN.
Proof.
  intros Hne Hall. unfold renormalize.
  rewrite (mean_constant scores c Hne Hall).
  assert (Hcell : ∀ x, x = c → rescale (fdiv (x - c) (std scores)) = NaN).
  { intros x ->. destruct (std_constant scores c Hall) as [-> | ->]; [done|].
    unfold fdiv. destruct (Req_EM_T 0 0) as [_|Hn]; [|done].
    destruct (Req_EM_T (c - c) 0) as [_|Hn]; [done|]. exfalso. apply Hn. lra. }
  generalize dependent (std scores). intros s Hcell. clear Hne.
  induction Hall as [|x l Hx Hl IH]; [done|].
  cbn [fmap list_fmap length replicate]. f_equal; [by apply Hcell|exact IH].
Qed.

(** Away from that case every cell is a number between 0 and 10. *)
Lemma renormalize_in_range (scores : list R) (s : R) :
  std scores = Finite s → s <> 0 →
  Forall (λ z, ∃ r, z = Finite r ∧ 0 <= r <= 10) (renormalize scores).
Proof.
  intros Hs Hne. unfold renormalize. rewrite Hs.
  apply Forall_fmap, Forall_forall. intros x _. simpl.
  destruct (Req_EM_T s 0) as [E|_]; [done|]. simpl.
  eexists. split; [reflexivity|]. apply clip_bounds. lra.
Qed.

(** Two streets with one incident each. *)
Definition two_streets : list Edge := [(1, 2, 0); (2, 1, 0)]%Z.

Definition incident_on (e : Edge) : Incident :=
  mkIncident (Some "THEFT") (Some "2100 BLOCK SHATTUCK AVE") (Some 1735689600000%Z)
    (Some (3787 # 100, - 12227 # 100)%Q) (Some (3787 # 100)%Q) (Some (- 12227 # 100)%Q)
    (Some 0%Z) (Some Night) (Some e).

Definition one_incident_each : DataFrame := incident_on <$> two_streets.

Definition one_each_counts : list (Edge * Z) :=
  [((1, 2, 0), 1); ((2, 1, 0), 1)]%Z.

Lemma value_counts_one_each :
  value_counts (omap edge one_incident_each) = one_each_counts.
Proof. vm_compute. reflexivity. Qed.

Lemma merged_scores_one_each :
  ∃ v, merged_scores two_streets one_each_counts = [v; v].
Proof.
  unfold merged_scores, calculate_crime_density_scores.
  cbn [fmap list_fmap snd fst zip zip_with two_streets one_each_counts].
  set (v := density_score _ _ 1). exists v. clearbody v.
  rewrite !list_to_map_cons. cbn [fst snd].
  rewrite lookup_insert_eq.
  rewrite lookup_insert_ne by done. rewrite lookup_insert_eq. done.
Qed.

(** C1. On a network of two streets with one incident each, both streets
    have the same score before the last step, their deviation is zero,
    and the unguarded division makes both final scores NaN: no fallback
    value is produced and the scores are not numbers in [0, 10]. *)
Theorem equal_scores_renormalize_to_nan :
  precompute_safety_scores two_streets one_incident_each
    = Ok [((1, 2, 0)%Z, NaN); ((2, 1, 0)%Z, NaN)] ∧
  ¬ (∀ gdf_edges geo_df out e z,
       precompute_safety_scores gdf_edges geo_df = Ok out → (e, z) ∈ out →
       ∃ r, z = Finite r ∧ 0 <= r <= 10).
Proof.
  assert (Hrun : precompute_safety_scores two_streets one_incident_each
                 = Ok [((1, 2, 0)%Z, NaN); ((2, 1, 0)%Z, NaN)]).
  { unfold precompute_safety_scores. rewrite value_counts_one_each.
    change (Ok (zip two_streets (renormalize (merged_scores two_streets one_each_counts)))
            = Ok [((1, 2, 0)%Z, NaN); ((2, 1, 0)%Z, NaN)]).
    destruct merged_scores_one_each as [v ->].
    rewrite (renormalize_constant [v; v] v) by (try done; by repeat constructor).
    reflexivity. }
  split; [exact Hrun|].
  intros Hall.
  destruct (Hall _ _ _ (1, 2, 0)%Z NaN Hrun) as (r & Hr & _); [|discriminate Hr].
  apply list_elem_of_here.
Qed.

End SafetyScoreSpec.

(** * Further properties of the pipeline *)

Module FetchPages.
Import Fetch FetchSpec.

Lemma fetch_loop_pages service s e : ∀ (rest : list (list Feature)) (k0 : nat)
    (acc : list Feature) (fuel : nat),
  (∀ k p, rest !! k = Some p →
     p ≠ [] ∧
     features (service (mkQuery s e (Z.of_nat (k0 + k) * batch_size) batch_size)) = Some p) →
  default [] (features (service
     (mkQuery s e (Z.of_nat (k0 + length rest) * batch_size) batch_size))) = [] →
  length rest < fuel →
  fetch_loop service s e fuel (Z.of_nat k0 * batch_size) acc = Some (acc ++ concat rest).
Proof.
  induction rest as [|p rest IH]; intros k0 acc fuel Hpages Hend Hfuel.
  - destruct fuel as [|fuel]; [simpl in Hfuel; lia|].
    simpl in Hend. rewrite Nat.add_0_r in Hend.
    rewrite (fetch_loop_empty_page _ _ _ _ _ _ Hend). simpl. by rewrite app_nil_r.
  - destruct fuel as [|fuel]; [simpl in Hfuel; lia|].
    destruct (Hpages 0 p eq_refl) as [Hne Hp]. rewrite Nat.add_0_r in Hp.
    cbn [fetch_loop]. rewrite Hp. cbn [default].
    destruct p as [|f p']; [done|].
    replace (Z.of_nat k0 * batch_size + batch_size)%Z
      with (Z.of_nat (S k0) * batch_size)%Z by lia.
    rewrite (IH (S k0)).
    + cbn [concat]. by rewrite app_assoc.
    + intros k q Hq. replace (S k0 + k) with (k0 + S k) by lia. by apply Hpages.
    + replace (S k0 + length rest) with (k0 + length (((f :: p') :: rest))) by (simpl; lia).
      exact Hend.
    + simpl in Hfuel. lia.
Qed.

(** X1. When the service answers the requests at offsets 0, 2000, 4000, ...
    with the non-empty pages of a list and the next request with an empty
    page, the loop ends after one request more than there are pages and
    has accumulated the pages in order; if the records carry their
    timestamps, the frame returned has one row per record, in that
    order. *)
Theorem fetch_concatenates_pages (service : Service) (s e : Date)
    (pages : list (list Feature)) (fuel : nat) :
  (∀ k p, pages !! k = Some p →
     p ≠ [] ∧
     features (service (mkQuery s e (Z.of_nat k * batch_size) batch_size)) = Some p) →
  default [] (features (service
     (mkQuery s e (Z.of_nat (length pages) * batch_size) batch_size))) = [] →
  length pages < fuel →
  fetch_loop service s e fuel 0 [] = Some (concat pages) ∧
  (page_has_dates (concat pages) = true →
   fetch_crime_data service fuel s e = Some (Ok (incident_of_feature <$> concat pages))).
Proof.
  intros Hpages Hend Hfuel.
  assert (Hloop : fetch_loop service s e fuel 0 [] = Some (concat pages)).
  { apply (fetch_loop_pages service s e pages 0 [] fuel); done. }
  split; [exact Hloop|].
  intros Hdates. unfold fetch_crime_data. rewrite Hloop. cbn.
  by rewrite frame_of_features_ok.
Qed.

(** A service with one record on each of its first two pages. *)
Definition two_page_service : Service :=
  λ q, if (resultOffset q <? 4000)%Z
       then mkResponse (Some [sample_feature])
       else mkResponse (Some []).

Lemma fetch_concatenates_pages_witness :
  fetch_loop two_page_service (mkDate 2025 1 1) (mkDate 2025 1 3) 3 0 []
  = Some [sample_feature; sample_feature].
Proof.
  assert (Hpages : ∀ k p, [[sample_feature]; [sample_feature]] !! k = Some p →
            p ≠ [] ∧
            features (two_page_service (mkQuery (mkDate 2025 1 1) (mkDate 2025 1 3)
                        (Z.of_nat k * batch_size) batch_size)) = Some p).
  { intros [|[|k]] p Hp; cbn in Hp; [| |discriminate Hp];
      injection Hp as <-; by split. }
  exact (proj1 (fetch_concatenates_pages two_page_service (mkDate 2025 1 1)
                  (mkDate 2025 1 3) [[sample_feature]; [sample_feature]] 3
                  Hpages eq_refl (le_n 3))).
Defined.

Lemma to_datetime_length cells stamps :
  to_datetime cells = Ok stamps → length stamps = length cells.
Proof.
  revert stamps. induction cells as [|c cells IH]; intros stamps H; simpl in H.
  - by injection H as <-.
  - destruct (to_datetime_ms c) as [t|]; [|discriminate]. simpl in H.
    destruct (to_datetime cells) as [ts|]; [|discriminate]. simpl in H.
    injection H as <-. simpl. by rewrite (IH ts).
Qed.

Lemma frame_of_features_rows all_features df :
  frame_of_features all_features = Ok df →
  all_features ≠ [] ∧ length df = length all_features.
Proof.
  unfold frame_of_features, getitem_Occurred_Datetime, frame_of_records. cbn.
  destruct (existsb _ _) eqn:Hex; cbn; [|discriminate].
  assert (Hcol : bool_decide ("Occurred_Datetime" ∈ out_fields) = true)
    by (vm_compute; reflexivity).
  rewrite Hcol. cbn.
  match goal with |- context [to_datetime ?c] =>
    destruct (to_datetime c) as [stamps|] eqn:Hstamps end; [|discriminate]. cbn.
  intros H. injection H as <-. split.
  - intros ->. discriminate Hex.
  - apply to_datetime_length in Hstamps.
    rewrite length_zip_with, Hstamps, !length_fmap. lia.
Qed.

(** X2. Whenever [fetch_crime_data] returns a frame, the frame has at
    least one row, and exactly one row per record accumulated by the loop:
    an empty frame is never returned, so the caller's test
    [if not raw_df.empty] cannot fail. *)
Theorem fetched_frame_never_empty (service : Service) (fuel : nat) (s e : Date)
    (df : DataFrame) :
  fetch_crime_data service fuel s e = Some (Ok df) →
  df ≠ [] ∧
  ∃ all_features, fetch_loop service s e fuel 0 [] = Some all_features ∧
                  length df = length all_features.
Proof.
  unfold fetch_crime_data. intros H.
  destruct (fetch_loop service s e fuel 0 []) as [all_features|]; [|discriminate].
  cbn in H. injection H as H.
  apply frame_of_features_rows in H as [Hne Hlen]. split.
  - intros ->. destruct all_features; [done|discriminate].
  - by exists all_features.
Qed.

Lemma fetched_frame_never_empty_witness :
  incident_of_feature <$> [sample_feature; sample_feature] ≠ [].
Proof.
  assert (Hrun : fetch_crime_data two_page_service 3 (mkDate 2025 1 1) (mkDate 2025 1 3)
                 = Some (Ok (incident_of_feature <$> [sample_feature; sample_feature])))
    by (vm_compute; reflexivity).
  exact (proj1 (fetched_frame_never_empty _ _ _ _ _ Hrun)).
Defined.

(** X3. The loop has no bound of its own: against a service that never
    answers with an empty page (one that ignores the offset, say) no
    number of requests ends it. *)
Theorem fetch_loop_needs_empty_page (service : Service) (s e : Date) :
  (∀ q, default [] (features (service q)) ≠ []) →
  ∀ fuel offset acc, fetch_loop service s e fuel offset acc = None.
Proof.
  intros Hfull. induction fuel as [|fuel IH]; intros offset acc; [done|].
  cbn [fetch_loop].
  destruct (default [] (features (service (mkQuery s e offset batch_size))))
    as [|f page] eqn:Hp.
  - by destruct (Hfull (mkQuery s e offset batch_size)).
  - apply IH.
Qed.

Definition endless_service : Service := λ _, mkResponse (Some [sample_feature]).

Lemma fetch_loop_needs_empty_page_witness :
  fetch_crime_data endless_service 1000 (mkDate 2025 1 1) (mkDate 2025 1 2) = None.
Proof.
  assert (Hfull : ∀ q, default [] (features (endless_service q)) ≠ []) by done.
  unfold fetch_crime_data.
  by rewrite (fetch_loop_needs_empty_page endless_service _ _ Hfull 1000 0%Z []).
Defined.

End FetchPages.

Module GeocodeCache.
Import Geocode GeocodeSpec.

Lemma cache_keys_after (geocode : Provider) (df : DataFrame) (w : World) (b : string) :
  is_Some (written geocode df w !! b) ↔
  is_Some (default ∅ (cache_file w) !! b) ∨ Some b ∈ Block_Address <$> df.
Proof.
  rewrite written_spec. unfold cache_after.
  rewrite <- elem_of_unique_addresses.
  destruct (default ∅ (cache_file w) !! b) as [v|].
  - split; eauto.
  - case_decide as Hin.
    + split; eauto.
    + split; [by intros [? ?]|]. intros [[? ?]|?]; done.
Qed.

(** X4. The cache only grows: a key present before a pass keeps its value,
    whatever the provider answers, and the keys afterwards are the old
    keys together with the non-null addresses of the frame. *)
Theorem cache_only_grows (geocode : Provider) (df : DataFrame) (w : World) (b : string) :
  (∀ v, default ∅ (cache_file w) !! b = Some v → written geocode df w !! b = Some v) ∧
  (is_Some (written geocode df w !! b) ↔
   is_Some (default ∅ (cache_file w) !! b) ∨ Some b ∈ Block_Address <$> df).
Proof.
  split; [|apply cache_keys_after].
  intros v Hv. rewrite written_spec. unfold cache_after. by rewrite Hv.
Qed.

Lemma filter_none {A} (p : A → bool) (l : list A) :
  (∀ x, x ∈ l → p x = false) → List.filter p l = [].
Proof.
  induction l as [|x l IH]; intros H; [done|]. simpl.
  rewrite (H x) by left. apply IH. intros y Hy. apply H. by right.
Qed.

(** A pass over a frame whose addresses are all cached. *)
Lemma quiet_pass (geocode : Provider) (df : DataFrame) (w : World) :
  (∀ a, Some a ∈ Block_Address <$> df → is_Some (default ∅ (cache_file w) !! a)) →
  issued geocode df w = [] ∧ written geocode df w = default ∅ (cache_file w).
Proof.
  intros Hall. split.
  - rewrite issued_spec. unfold misses. rewrite filter_none; [done|].
    intros a Ha%elem_of_unique_addresses. apply Hall in Ha as [v Hv].
    apply bool_decide_eq_false. congruence.
  - apply map_eq. intros b. rewrite written_spec. unfold cache_after.
    destruct (default ∅ (cache_file w) !! b) as [v|] eqn:Hb; [done|].
    case_decide as Hin; [|done].
    apply elem_of_unique_addresses, Hall in Hin as [v Hv]. congruence.
Qed.

Lemma geocode_addresses_eq (geocode : Provider) (df : DataFrame) (w : World) :
  geocode_addresses geocode df w
  = (match joined geocode df w with
     | [] => Raise (ValueError "Columns must be same length as key")
     | out => Ok out
     end,
     {| cache_file := Some (written geocode df w);
        requests := requests w ++ issued geocode df w |}).
Proof.
  rewrite <- geocode_addresses_result, <- geocode_addresses_world.
  by destruct (geocode_addresses geocode df w).
Qed.

(** X5. With every address of the frame already in the cache, a pass asks
    the provider nothing, leaves the cache as it was, and its result is
    the same whatever the provider would have answered: the result is a
    function of the frame and the cache alone. *)
Theorem cached_pass_ignores_provider (g g' : Provider) (df : DataFrame) (w : World) :
  (∀ a, Some a ∈ Block_Address <$> df → is_Some (default ∅ (cache_file w) !! a)) →
  requests (geocode_addresses g df w).2 = requests w ∧
  cache_file (geocode_addresses g df w).2 = Some (default ∅ (cache_file w)) ∧
  geocode_addresses g df w = geocode_addresses g' df w.
Proof.
  intros Hall.
  destruct (quiet_pass g df w Hall) as [Hi Hw].
  destruct (quiet_pass g' df w Hall) as [Hi' Hw'].
  rewrite !geocode_addresses_eq. unfold joined. rewrite Hi, Hi', Hw, Hw'. simpl.
  by rewrite app_nil_r.
Qed.

Lemma cached_pass_ignores_provider_witness :
  geocode_addresses sample_provider [sample_row (Some "1 A ST")] sample_world
  = geocode_addresses (λ _, NoMatch) [sample_row (Some "1 A ST")] sample_world.
Proof.
  assert (Hall : ∀ a, Some a ∈ Block_Address <$> [sample_row (Some "1 A ST")] →
                   is_Some (default ∅ (cache_file sample_world) !! a)).
  { intros a Ha. apply list_elem_of_singleton in Ha. injection Ha as ->.
    exists None. reflexivity. }
  exact (proj2 (proj2 (cached_pass_ignores_provider sample_provider (λ _, NoMatch)
                         [sample_row (Some "1 A ST")] sample_world Hall))).
Defined.

(** X6. Running the pass again on the same frame, from the world the
    first pass left, sends no request, rewrites the same cache and gives
    the same result, whatever the provider now answers. *)
Theorem second_pass_changes_nothing (g1 g2 : Provider) (df : DataFrame) (w : World) :
  let w1 := (geocode_addresses g1 df w).2 in
  (geocode_addresses g2 df w1).1 = (geocode_addresses g1 df w).1 ∧
  cache_file (geocode_addresses g2 df w1).2 = cache_file w1 ∧
  requests (geocode_addresses g2 df w1).2 = requests w1.
Proof.
  intros w1.
  assert (Hw1 : default ∅ (cache_file w1) = written g1 df w).
  { subst w1. by rewrite geocode_addresses_world. }
  assert (Hall : ∀ a, Some a ∈ Block_Address <$> df →
                   is_Some (default ∅ (cache_file w1) !! a)).
  { intros a Ha. rewrite Hw1. apply cache_keys_after. by right. }
  destruct (quiet_pass g2 df w1 Hall) as [Hi Hw].
  rewrite (geocode_addresses_eq g2 df w1). simpl.
  unfold joined. rewrite Hi, Hw, Hw1, app_nil_r.
  split; [|split; [|done]].
  - by rewrite geocode_addresses_result.
  - subst w1. by rewrite geocode_addresses_world.
Qed.

(** X7. The pass raises exactly when no row of the frame ends with
    coordinates; this includes the empty frame and a frame whose addresses
    are all null or unresolvable.  The cache file has been written by
    then. *)
Theorem pass_raises_iff_nothing_resolves (geocode : Provider) (df : DataFrame) (w : World) :
  ((geocode_addresses geocode df w).1 = Raise (ValueError "Columns must be same length as key")
   ↔ ∀ r, r ∈ df → map_coords (written geocode df w) r = None) ∧
  ((∃ out, (geocode_addresses geocode df w).1 = Ok out)
   ∨ (geocode_addresses geocode df w).1
     = Raise (ValueError "Columns must be same length as key")) ∧
  cache_file (geocode_addresses geocode df w).2 = Some (written geocode df w).
Proof.
  rewrite geocode_addresses_eq. simpl. split; [|split; [|done]].
  - destruct (joined geocode df w) as [|x out] eqn:E; split; try done.
    + intros _ r Hr.
      destruct (map_coords (written geocode df w) r) as [c|] eqn:Hc; [|done].
      exfalso. assert (Hin : ∃ r', r' ∈ joined geocode df w).
      { unfold joined. eexists. apply list_elem_of_omap. exists r. split; [done|].
        unfold geocoded_row. rewrite Hc. done. }
      destruct Hin as [r' Hin]. rewrite E in Hin. by apply elem_of_nil in Hin.
    + intros Hnone. exfalso.
      assert (Hin : x ∈ joined geocode df w) by (rewrite E; left).
      apply list_elem_of_omap in Hin as (r & Hr & Hrow).
      unfold geocoded_row in Hrow. rewrite (Hnone r Hr) in Hrow. discriminate.
  - destruct (joined geocode df w); eauto.
Qed.

Lemma joined_row (geocode : Provider) (df : DataFrame) (w : World) (r : Incident) :
  r ∈ joined geocode df w →
  ∃ a c, Block_Address r = Some a ∧ written geocode df w !! a = Some (Some c) ∧
         coords r = Some c ∧ latitude r = Some c.1 ∧ longitude r = Some c.2.
Proof.
  intros (r0 & Hr0 & Hrow)%list_elem_of_omap.
  unfold geocoded_row, map_coords in Hrow.
  destruct (Block_Address r0) as [a|] eqn:Ha; [|discriminate]. simpl in Hrow.
  destruct (written geocode df w !! a) as [[c|]|] eqn:Hc; try discriminate.
  simpl in Hrow. injection Hrow as <-. exists a, c. simpl. done.
Qed.

(** X8. In a returned frame every row has coordinates, its latitude and
    longitude are the two components of the cache entry of its address,
    and two rows with the same address have the same coordinates. *)
Theorem same_address_same_coordinates (geocode : Provider) (df : DataFrame)
    (w : World) (out : DataFrame) (r1 r2 : Incident) :
  (geocode_addresses geocode df w).1 = Ok out →
  r1 ∈ out → r2 ∈ out →
  (∃ a c, Block_Address r1 = Some a ∧ written geocode df w !! a = Some (Some c) ∧
          coords r1 = Some c ∧ latitude r1 = Some c.1 ∧ longitude r1 = Some c.2) ∧
  (Block_Address r1 = Block_Address r2 →
   coords r1 = coords r2 ∧ latitude r1 = latitude r2 ∧ longitude r1 = longitude r2).
Proof.
  intros Hres H1 H2. rewrite geocode_addresses_result in Hres.
  assert (Hout : out = joined geocode df w).
  { destruct (joined geocode df w); [discriminate|]. by injection Hres as <-. }
  subst out.
  destruct (joined_row _ _ _ _ H1) as (a1 & c1 & Ha1 & Hc1 & E1 & L1 & M1).
  destruct (joined_row _ _ _ _ H2) as (a2 & c2 & Ha2 & Hc2 & E2 & L2 & M2).
  split; [by exists a1, c1|].
  intros Heq. rewrite Ha1, Ha2 in Heq. injection Heq as ->.
  rewrite Hc1 in Hc2. injection Hc2 as ->.
  by rewrite E1, E2, L1, L2, M1, M2.
Qed.

Definition shared_address_df : DataFrame :=
  [sample_row (Some "2 B ST"); sample_row (Some "1 A ST"); sample_row (Some "2 B ST")].

Definition geocoded_sample : Incident :=
  {| Incident_Type := Some "THEFT"; Block_Address := Some "2 B ST";
     Occurred_Datetime := Some 1735689600000%Z;
     coords := Some (3787 # 100, - 12227 # 100)%Q;
     latitude := Some (3787 # 100)%Q; longitude := Some (- 12227 # 100)%Q;
     hour := None; time_of_day := None; edge := None |}.

Lemma same_address_same_coordinates_witness :
  ∃ a c, Block_Address geocoded_sample = Some a ∧
         written sample_provider shared_address_df (mkWorld None []) !! a = Some (Some c) ∧
         coords geocoded_sample = Some c ∧
         latitude geocoded_sample = Some c.1 ∧ longitude geocoded_sample = Some c.2.
Proof.
  assert (Hres : (geocode_addresses sample_provider shared_address_df (mkWorld None [])).1
                 = Ok [geocoded_sample; geocoded_sample]) by (vm_compute; reflexivity).
  assert (Hin : geocoded_sample ∈ [geocoded_sample; geocoded_sample]) by left.
  exact (proj1 (same_address_same_coordinates sample_provider shared_address_df
                  (mkWorld None []) _ geocoded_sample geocoded_sample Hres Hin Hin)).
Defined.

End GeocodeCache.

Module TimeBucketsMore.
Import TimeBuckets TimeBucketsSpec.

Lemma bucket_of_hour_outside h :
  (h < 0 ∨ 24 <= h)%Z → bucket_of_hour h = None.
Proof.
  intros Hh. unfold bucket_of_hour, bins, labels. simpl.
  repeat match goal with
         | |- context [(?a <=? ?b)%Z] => destruct (Z.leb_spec a b)
         | |- context [(?a <? ?b)%Z] => destruct (Z.ltb_spec a b)
         end; simpl; try reflexivity; lia.
Qed.

(** X9. An integer hour has a bucket exactly when it lies in [0, 24); the
    hour the classifier derives from a timestamp always does, also for
    timestamps before the epoch.  So after [add_time_of_day] a row has an
    hour and a bucket exactly when it has a timestamp, every other column
    is unchanged, and classifying a second time changes nothing. *)
Theorem bucket_exactly_for_timestamps (df : DataFrame) (h : Z) :
  (is_Some (bucket_of_hour h) ↔ (0 <= h < 24)%Z) ∧
  Forall2 (λ r r',
      (is_Some (time_of_day r') ↔ is_Some (Occurred_Datetime r)) ∧
      (is_Some (hour r') ↔ is_Some (Occurred_Datetime r)) ∧
      (∀ x, hour r' = Some x → (0 <= x < 24)%Z) ∧
      Incident_Type r' = Incident_Type r ∧ Block_Address r' = Block_Address r ∧
      Occurred_Datetime r' = Occurred_Datetime r ∧ coords r' = coords r ∧
      latitude r' = latitude r ∧ longitude r' = longitude r ∧ edge r' = edge r)
    df (add_time_of_day df) ∧
  add_time_of_day (add_time_of_day df) = add_time_of_day df.
Proof.
  split; [|split].
  - destruct (decide (0 <= h < 24)%Z) as [Hin|Hout].
    + rewrite (bucket_of_hour_expected h Hin). split; eauto.
    + rewrite bucket_of_hour_outside by lia. split; [by intros [? ?]|lia].
  - unfold add_time_of_day. apply Forall2_fmap_r, Forall_Forall2_diag, Forall_forall.
    intros r _. unfold add_time_of_day_row. simpl.
    destruct (Occurred_Datetime r) as [ms|]; simpl.
    + rewrite (bucket_of_hour_expected _ (dt_hour_range ms)).
      pose proof (dt_hour_range ms).
      repeat split; eauto; simplify_eq; lia.
    + repeat split; try done; by intros [? ?].
  - unfold add_time_of_day. rewrite <- list_fmap_compose.
    apply list_fmap_ext. intros i r _. reflexivity.
Qed.

End TimeBucketsMore.

Module ViewSpec.
Import Filters SafetyScore Colors View.

Definition tally (e : Edge) (edges : list Edge) : Z :=
  Z.of_nat (length (List.filter (λ e', bool_decide (e' = e)) edges)).

Definition total (counts : list (Edge * Z)) : Z := foldr Z.add 0%Z (snd <$> counts).

Lemma value_counts_keys edges : fst <$> value_counts edges = unique edges.
Proof.
  unfold value_counts. rewrite <- list_fmap_compose.
  induction (unique edges) as [|e l IH]; [done|]. cbn. by rewrite IH.
Qed.

Lemma elem_of_value_counts edges e n :
  (e, n) ∈ value_counts edges ↔ e ∈ edges ∧ n = tally e edges.
Proof.
  unfold value_counts. rewrite list_elem_of_fmap. split.
  - intros (e' & [= -> ->] & He). split; [by apply elem_of_unique|done].
  - intros [He ->]. exists e. split; [done|]. by apply elem_of_unique.
Qed.

Lemma tally_pos e edges : e ∈ edges → (1 <= tally e edges)%Z.
Proof.
  intros He. unfold tally.
  assert (Hin : e ∈ List.filter (λ e', bool_decide (e' = e)) edges).
  { apply elem_of_filter_bool. split; [done|]. by apply bool_decide_eq_true. }
  destruct (List.filter _ edges); [by apply elem_of_nil in Hin|]. simpl. lia.
Qed.

Lemma tally_cons e x edges :
  tally e (x :: edges) = ((if decide (x = e) then 1 else 0) + tally e edges)%Z.
Proof.
  unfold tally. simpl. destruct (decide (x = e)) as [->|Hne].
  - rewrite bool_decide_eq_true_2 by done. simpl. lia.
  - rewrite bool_decide_eq_false_2 by done. lia.
Qed.

Lemma indicator_sum (x : Edge) (keys : list Edge) :
  NoDup keys →
  foldr Z.add 0%Z ((λ k, if decide (x = k) then 1 else 0)%Z <$> keys)
  = (if decide (x ∈ keys) then 1 else 0)%Z.
Proof.
  induction 1 as [|k keys Hk Hnd IH]; [done|]. cbn. rewrite IH.
  destruct (decide (x = k)) as [->|Hne].
  - rewrite decide_False by done. rewrite decide_True by left. done.
  - destruct (decide (x ∈ keys)) as [Hin|Hnin].
    + rewrite decide_True by (by right). done.
    + rewrite decide_False; [done|]. rewrite elem_of_cons. tauto.
Qed.

Lemma tally_sum (keys edges : list Edge) :
  NoDup keys →
  foldr Z.add 0%Z ((λ k, tally k edges) <$> keys)
  = Z.of_nat (length (List.filter (λ x, bool_decide (x ∈ keys)) edges)).
Proof.
  intros Hnd. induction edges as [|x edges IH].
  - cbn. induction keys as [|k keys IHk]; [done|]. cbn.
    apply NoDup_cons in Hnd as [_ Hnd]. by rewrite (IHk Hnd).
  - assert (Hsplit : foldr Z.add 0%Z ((λ k, tally k (x :: edges)) <$> keys)
              = (foldr Z.add 0%Z ((λ k, if decide (x = k) then 1 else 0)%Z <$> keys)
                 + foldr Z.add 0%Z ((λ k, tally k edges) <$> keys))%Z).
    { clear. induction keys as [|k keys IHk]; [done|]. cbn.
      rewrite IHk, tally_cons. lia. }
    rewrite Hsplit, IH, (indicator_sum x keys Hnd). cbn.
    destruct (decide (x ∈ keys)) as [Hin|Hnin].
    + rewrite bool_decide_eq_true_2 by done. simpl length. lia.
    + rewrite bool_decide_eq_false_2 by done. lia.
Qed.

Lemma filter_all {A} (p : A → bool) (l : list A) :
  (∀ x, x ∈ l → p x = true) → List.filter p l = l.
Proof.
  induction l as [|x l IH]; intros H; [done|]. simpl.
  rewrite (H x) by left. f_equal. apply IH. intros y Hy. apply H. by right.
Qed.

(** X10. [value_counts] lists every edge that occurs exactly once, with
    the number of its occurrences, which is at least 1; the counts add up
    to the number of rows counted. *)
Theorem value_counts_tally (edges : list Edge) :
  NoDup (fst <$> value_counts edges) ∧
  (∀ e n, (e, n) ∈ value_counts edges ↔ e ∈ edges ∧ n = tally e edges) ∧
  (∀ e n, (e, n) ∈ value_counts edges → (1 <= n)%Z) ∧
  total (value_counts edges) = Z.of_nat (length edges).
Proof.
  split; [|split; [|split]].
  - rewrite value_counts_keys. apply NoDup_unique.
  - apply elem_of_value_counts.
  - intros e n [He ->]%elem_of_value_counts. by apply tally_pos.
  - unfold total, value_counts. rewrite <- list_fmap_compose.
    change (foldr Z.add 0%Z ((λ k, tally k edges) <$> unique edges)
            = Z.of_nat (length edges)).
    rewrite (tally_sum _ _ (NoDup_unique edges)).
    rewrite filter_all; [done|].
    intros x Hx. apply bool_decide_eq_true. by apply elem_of_unique.
Qed.

Lemma view_df_no_types times geo_df : filtered_df [] times geo_df = [].
Proof.
  unfold filtered_df. apply GeocodeCache.filter_none. intros r _.
  unfold isin_type. rewrite bool_decide_eq_false_2; [done|]. apply not_elem_of_nil.
Qed.

(** X11. After "Run Analysis" in a fresh session the applied type
    selection is still empty: whatever the processed frame holds, the main
    pane shows no incident and no street until "Apply Filters" is used,
    and editing the staged selection alone does not change that. *)
Theorem nothing_shown_until_applied (geo_df : DataFrame) (selected : FilterState) :
  rendered (on_run geo_df initial_session) = Some ([], []) ∧
  rendered (on_refine selected (on_run geo_df initial_session)) = Some ([], []).
Proof.
  unfold rendered, on_refine, on_run, initial_session. cbn.
  unfold filtered_edge_counts, edge_counts, view_df. cbn.
  rewrite view_df_no_types. done.
Qed.

Lemma isin_all_types geo_df r :
  r ∈ geo_df → isin_type (crime_types geo_df) r = true.
Proof.
  intros Hr. unfold isin_type, crime_types. apply bool_decide_eq_true.
  apply elem_of_unique, list_elem_of_fmap. by exists r.
Qed.

Lemma isin_all_times r :
  isin_time all_times r = bool_decide (is_Some (time_of_day r)).
Proof.
  unfold isin_time, all_times. destruct (time_of_day r) as [[]|]; reflexivity.
Qed.

(** X12. "Apply Filters" straight after "Run Analysis" applies the full
    selection the run staged, and the rows then shown are exactly the rows
    that have a time-of-day bucket, in order; a frame in which every row
    has one is shown whole. *)
Theorem default_selection_shows_bucketed_rows (geo_df : DataFrame) :
  let s := on_apply (on_run geo_df initial_session) in
  filters s = run_filters geo_df ∧
  fst <$> rendered s
    = Some (List.filter (λ r, bool_decide (is_Some (time_of_day r))) geo_df) ∧
  (Forall (λ r, is_Some (time_of_day r)) geo_df → fst <$> rendered s = Some geo_df).
Proof.
  cbn. split; [done|].
  assert (Hview : view_df (run_filters geo_df) geo_df
                  = List.filter (λ r, bool_decide (is_Some (time_of_day r))) geo_df).
  { unfold view_df, filtered_df. cbn. apply GeocodeSpec.filter_ext_in.
    intros r Hr. by rewrite (isin_all_types geo_df r Hr), isin_all_times. }
  rewrite Hview. split; [done|].
  intros Hall. f_equal. apply filter_all. intros r Hr.
  apply bool_decide_eq_true. rewrite Forall_forall in Hall. by apply Hall.
Qed.

(** X13. Every street in the filtered count map is the edge of a row of
    the filtered view, with a count of at least 1 and at least the
    threshold; so a threshold of at most 1, the default 0 included, hides
    no street, and raising the threshold never adds one. *)
Theorem severity_threshold (f : FilterState) (geo_df : DataFrame) :
  (∀ e n, (e, n) ∈ filtered_edge_counts f geo_df →
     (1 <= n)%Z ∧ (min_severity f <= n)%Z ∧
     ∃ r, r ∈ view_df f geo_df ∧ edge r = Some e) ∧
  ((min_severity f <= 1)%Z → filtered_edge_counts f geo_df = edge_counts f geo_df) ∧
  (∀ m e n, (min_severity f <= m)%Z →
     (e, n) ∈ filtered_edge_counts (mkFilters (types f) (times f) m) geo_df →
     (e, n) ∈ filtered_edge_counts f geo_df).
Proof.
  split; [|split].
  - intros e n [Hin Hsev]%elem_of_filter_bool. simpl in Hsev.
    apply Z.leb_le in Hsev.
    apply elem_of_value_counts in Hin as [He ->].
    split; [by apply tally_pos|]. split; [done|].
    apply list_elem_of_omap in He as (r & Hr & He). eauto.
  - intros Hsev. unfold filtered_edge_counts. apply filter_all.
    intros [e n] [He ->]%elem_of_value_counts. simpl.
    apply Z.leb_le. pose proof (tally_pos e _ He). lia.
  - intros m e n Hm [Hin Hsev]%elem_of_filter_bool. simpl in Hsev.
    apply Z.leb_le in Hsev. apply elem_of_filter_bool. split; [exact Hin|].
    simpl. apply Z.leb_le. lia.
Qed.

End ViewSpec.

Module ColorsMore.
Import Quantile Colors QuantileSpec ColorsSpec.

Lemma lerp_upper (a b m g : Q) :
  (a <= b)%Q → (b <= m)%Q → (0 <= g)%Q → (g <= 1)%Q → (a + (b - a) * g <= m)%Q.
Proof. intros. nra. Qed.

Lemma lerp_lower (a b m g : Q) :
  (m <= a)%Q → (a <= b)%Q → (0 <= g)%Q → (m <= a + (b - a) * g)%Q.
Proof. intros. nra. Qed.

(** The two order statistics a quantile interpolates, and its fraction. *)
Lemma quantile_neighbours (values : list Z) (q : Q) :
  values ≠ [] → (0 <= q)%Q → (q <= 1)%Q →
  ∃ a b g, a ∈ values ∧ b ∈ values ∧ (a <= b)%Z ∧ (0 <= g)%Q ∧ (g < 1)%Q ∧
           quantile values q = (inject_Z a + (inject_Z b - inject_Z a) * g)%Q.
Proof.
  intros Hne Hq0 Hq1. rewrite quantile_unfold.
  assert (Hn : 0 < length values) by (destruct values; [done|simpl; lia]).
  destruct (position_bounds (length values) q Hn Hq0 Hq1) as (H1 & H2 & H3 & _ & H5 & H6).
  set (p := position_of (length values) q) in *. cbv zeta.
  exists (nth (Z.to_nat (pos_lo p)) (sort values) 0%Z),
         (nth (Z.to_nat (pos_hi p)) (sort values) 0%Z), (pos_frac p).
  assert (Hin : ∀ x, x ∈ sort values → x ∈ values)
    by (intros x Hx; by rewrite sort_perm in Hx).
  repeat split; try done.
  - apply Hin, nth_elem_of. rewrite length_sort. lia.
  - apply Hin, nth_elem_of. rewrite length_sort. lia.
  - apply sorted_nth; [apply sort_sorted| |rewrite length_sort]; lia.
Qed.

(** A quantile lies between any bounds of the sample. *)
Lemma quantile_upper (values : list Z) (hi : Z) (q : Q) :
  values ≠ [] → Forall (λ v, (v <= hi)%Z) values → (0 <= q)%Q → (q <= 1)%Q →
  (quantile values q <= inject_Z hi)%Q.
Proof.
  intros Hne Hall Hq0 Hq1.
  destruct (quantile_neighbours values q Hne Hq0 Hq1)
    as (a & b & g & Ha & Hb & Hab & Hg0 & Hg1 & ->).
  rewrite Forall_forall in Hall. apply Hall in Hb.
  rewrite Zle_Qle in Hab, Hb. apply lerp_upper; try done. lra.
Qed.

Lemma quantile_lower (values : list Z) (lo : Z) (q : Q) :
  values ≠ [] → Forall (λ v, (lo <= v)%Z) values → (0 <= q)%Q → (q <= 1)%Q →
  (inject_Z lo <= quantile values q)%Q.
Proof.
  intros Hne Hall Hq0 Hq1.
  destruct (quantile_neighbours values q Hne Hq0 Hq1)
    as (a & b & g & Ha & Hb & Hab & Hg0 & Hg1 & ->).
  rewrite Forall_forall in Hall. apply Hall in Ha.
  rewrite Zle_Qle in Hab, Ha. by apply lerp_lower.
Qed.

Lemma dedup_sorted_Forall (P : Q → Prop) (l : list Q) :
  Forall P l → Forall P (dedup_sorted l).
Proof.
  induction 1 as [|x l Hx Hl IH]; [constructor|].
  cbn [dedup_sorted]. destruct l as [|y l']; [by repeat constructor|].
  destruct (Qeq_bool x y); [done|by constructor].
Qed.

Lemma dedup_sorted_length (l : list Q) :
  length (dedup_sorted l) ≤ length l ∧ (l ≠ [] → dedup_sorted l ≠ []).
Proof.
  induction l as [|x l [IH1 IH2]]; [done|].
  cbn [dedup_sorted]. destruct l as [|y l']; [done|].
  destruct (Qeq_bool x y); split; try done.
  - simpl in *. lia.
  - intros _. by apply IH2.
  - simpl in *. lia.
Qed.

Lemma classify_counts_shape (counts : list (Edge * Z)) :
  counts ≠ [] →
  classify_counts counts ≠ [] ∧ length (classify_counts counts) ≤ 5.
Proof.
  intros Hne. destruct counts as [|ec counts']; [done|].
  cbn [classify_counts]. unfold np_unique.
  destruct (dedup_sorted_length
              (foldr insert_sortedQ [] (quantile ((ec :: counts').*2) <$> percentiles)))
    as [Hlen Hnnil].
  rewrite sortedQ_length in Hlen. split; [|exact Hlen].
  apply Hnnil. intros E. apply (f_equal length) in E.
  rewrite sortedQ_length in E. discriminate E.
Qed.

Lemma classify_counts_Forall (counts : list (Edge * Z)) (P : Q → Prop) :
  counts ≠ [] →
  (∀ q, (0 <= q)%Q → (q <= 1)%Q → P (quantile (snd <$> counts) q)) →
  Forall P (classify_counts counts).
Proof.
  intros Hne HP. destruct counts as [|ec counts']; [done|].
  cbn [classify_counts]. set (counts := ec :: counts') in *.
  apply dedup_sorted_Forall, sortedQ_Forall. unfold percentiles.
  cbn [fmap list_fmap].
  repeat (apply Forall_cons_2; [apply HP; by vm_compute|]).
  apply Forall_nil_2.
Qed.

Lemma first_interval_none (count : Q) (breaks : list Q) (i : nat) :
  Forall (λ b, (b <= count)%Q) breaks → first_interval count breaks i = None.
Proof.
  intros Hall. revert i. induction Hall as [|lo rest Hlo Hrest IH]; intros i; [done|].
  cbn [first_interval]. destruct rest as [|hi rest']; [done|].
  assert (Hhi : Qle_bool hi count = true).
  { apply Qle_bool_iff. by apply Forall_cons in Hrest as [? _]. }
  rewrite Hhi, andb_false_r. apply IH.
Qed.

(** The interval the loop stops at. *)
Lemma first_interval_some (count : Q) (breaks : list Q) : ∀ (i j : nat),
  first_interval count breaks i = Some j →
  ∃ k lo hi, j = i + k ∧ breaks !! k = Some lo ∧ breaks !! S k = Some hi ∧
             (lo <= count)%Q ∧ (count < hi)%Q ∧
             ∀ k' lo' hi', k' < k → breaks !! k' = Some lo' → breaks !! S k' = Some hi' →
                           ¬ ((lo' <= count)%Q ∧ (count < hi')%Q).
Proof.
  induction breaks as [|lo rest IH]; intros i j H; [discriminate|].
  cbn [first_interval] in H. destruct rest as [|hi rest']; [discriminate|].
  destruct (Qle_bool lo count && negb (Qle_bool hi count)) eqn:Hhit.
  - injection H as <-. apply andb_prop in Hhit as [H1 H2].
    apply Qle_bool_iff in H1. apply negb_true_iff in H2.
    assert (count < hi)%Q.
    { apply Qnot_le_lt. intros Hle. apply Qle_bool_iff in Hle. congruence. }
    exists 0, lo, hi. repeat split; try done; try lia.
  - destruct (IH (S i) j H) as (k & lo' & hi' & -> & Hk1 & Hk2 & Hle & Hlt & Hfirst).
    exists (S k), lo', hi'. repeat split; try done; try lia.
    intros [|k'] lo'' hi'' Hk' Hl Hh [Hc1 Hc2].
    + cbn in Hl, Hh. injection Hl as <-. injection Hh as <-.
      apply andb_false_iff in Hhit as [Hf|Hf].
      * apply Qle_bool_iff in Hc1. congruence.
      * apply negb_false_iff, Qle_bool_iff in Hf. apply Qle_not_lt in Hf. done.
    + apply (Hfirst k' lo'' hi''); [lia|done|done|done].
Qed.

(** X14. In every non-empty count map the edges with the largest count
    get the last color of the palette, the top tier. *)
Theorem maximum_count_in_top_tier (counts : list (Edge * Z)) (e : Edge) (m : Z) :
  (e, m) ∈ counts →
  (∀ e' n, (e', n) ∈ counts → (n <= m)%Z) →
  get_color_for_count m (classify_counts counts) = Ok top_color ∧
  (e, Ok top_color) ∈ edge_colors counts.
Proof.
  intros He Hmax.
  assert (Hne : counts ≠ []) by (intros ->; by apply elem_of_nil in He).
  assert (Hcol : get_color_for_count m (classify_counts counts) = Ok top_color).
  { destruct (classify_counts_shape counts Hne) as [Hnnil _].
    assert (Hle : Forall (λ b, (b <= inject_Z m)%Q) (classify_counts counts)).
    { apply classify_counts_Forall; [done|]. intros q Hq0 Hq1.
      apply quantile_upper; try done.
      - by destruct counts.
      - apply Forall_fmap, Forall_forall. intros [e' n] Hin. simpl. by eapply Hmax. }
    unfold get_color_for_count.
    destruct (classify_counts counts) as [|b0 rest]; [done|].
    by rewrite first_interval_none. }
  split; [exact Hcol|].
  unfold edge_colors. apply list_elem_of_fmap. exists (e, m). by rewrite Hcol.
Qed.

Lemma maximum_count_in_top_tier_witness :
  get_color_for_count 10 (classify_counts abc) = Ok top_color ∧
  ((3, 4, 0)%Z, Ok top_color) ∈ edge_colors abc.
Proof.
  assert (Hin : ((3, 4, 0)%Z, 10%Z) ∈ abc) by (do 2 right; left).
  assert (Hmax : ∀ e' n, (e', n) ∈ abc → (n <= 10)%Z).
  { intros e' n H. unfold abc in H. rewrite !elem_of_cons in H.
    destruct H as [[= _ ->]|[[= _ ->]|[[= _ ->]|H]]]; try lia.
    by apply elem_of_nil in H. }
  exact (maximum_count_in_top_tier abc (3, 4, 0)%Z 10 Hin Hmax).
Defined.

(** X15. Coloring never fails and never uses the neutral color: every
    edge of a count map gets one of the five palette colors (an index
    outside the palette cannot arise, and a map with an edge always has a
    breakpoint). *)
Theorem edge_colors_from_palette (counts : list (Edge * Z)) (e : Edge)
    (col : result string) :
  (e, col) ∈ edge_colors counts →
  ∃ c, col = Ok c ∧ c ∈ color_palette ∧ c ≠ no_data_color.
Proof.
  intros Hin.
  assert (Hne : counts ≠ []).
  { intros ->. by apply elem_of_nil in Hin. }
  destruct (classify_counts_shape counts Hne) as [Hnnil Hlen].
  unfold edge_colors in Hin. apply list_elem_of_fmap in Hin as ([e' n] & [= -> ->] & _).
  assert (Hpal : ∀ c, c ∈ color_palette → c ≠ no_data_color).
  { intros c Hc. unfold color_palette in Hc. rewrite !elem_of_cons in Hc.
    destruct Hc as [->|[->|[->|[->|[->|Hc]]]]]; try discriminate.
    by apply elem_of_nil in Hc. }
  unfold get_color_for_count.
  destruct (classify_counts counts) as [|b0 rest] eqn:Hb; [done|].
  destruct (first_interval (inject_Z n) (b0 :: rest) 0) as [j|] eqn:Hj.
  - apply first_interval_some in Hj as (k & lo & hi & -> & _ & Hk & _).
    apply lookup_lt_Some in Hk.
    assert (Hk3 : k < length color_palette) by (simpl in *; lia).
    destruct (lookup_lt_is_Some_2 color_palette k Hk3) as [c Hc].
    simpl. rewrite Hc. exists c.
    assert (c ∈ color_palette) by (by eapply list_elem_of_lookup_2).
    repeat split; auto.
  - assert (Htop : top_color ∈ color_palette)
      by (unfold color_palette, top_color; do 4 right; left).
    exists top_color. split; [reflexivity|]. split; [exact Htop|by apply Hpal].
Qed.

Lemma edge_colors_from_palette_witness :
  ∃ c, Ok "#FFDC00" = Ok c ∧ c ∈ color_palette ∧ c ≠ no_data_color.
Proof.
  assert (Hin : ((2, 3, 0)%Z, Ok "#FFDC00") ∈ edge_colors abc).
  { assert (E : edge_colors abc
                = [((1, 2, 0)%Z, Ok "#85144b"); ((2, 3, 0)%Z, Ok "#FFDC00");
                   ((3, 4, 0)%Z, Ok "#85144b")]) by (vm_compute; reflexivity).
    rewrite E. right; left. }
  exact (edge_colors_from_palette abc (2, 3, 0)%Z (Ok "#FFDC00") Hin).
Defined.

Lemma first_interval_none_inv (count : Q) (breaks : list Q) : ∀ (i : nat),
  first_interval count breaks i = None →
  ∀ k lo hi, breaks !! k = Some lo → breaks !! S k = Some hi →
             ¬ ((lo <= count)%Q ∧ (count < hi)%Q).
Proof.
  induction breaks as [|lo rest IH]; intros i H k lo' hi' Hl Hh [Hc1 Hc2];
    [discriminate|].
  cbn [first_interval] in H. destruct rest as [|hi rest']; [by destruct k|].
  destruct (Qle_bool lo count && negb (Qle_bool hi count)) eqn:Hhit; [discriminate|].
  destruct k as [|k].
  - cbn in Hl, Hh. injection Hl as <-. injection Hh as <-.
    apply andb_false_iff in Hhit as [Hf|Hf].
    + apply Qle_bool_iff in Hc1. congruence.
    + apply negb_false_iff, Qle_bool_iff in Hf. apply Qle_not_lt in Hf. done.
  - by apply (IH (S i) H k lo' hi').
Qed.

(** X16. What a color means, for any list of breakpoints: the neutral
    color for an empty list; otherwise color number [k] when [k] is the
    first index with [breaks[k] <= count < breaks[k+1]]; and the last
    color of the palette when no pair of neighbouring breakpoints holds
    the count, be it above the last breakpoint or below the first. *)
Theorem color_meaning (count : Z) (breaks : list Q) (c : string) :
  get_color_for_count count breaks = Ok c →
  (breaks = [] ∧ c = no_data_color) ∨
  (∃ k lo hi, breaks !! k = Some lo ∧ breaks !! S k = Some hi ∧
      (lo <= inject_Z count)%Q ∧ (inject_Z count < hi)%Q ∧
      color_palette !! k = Some c ∧
      ∀ k' lo' hi', k' < k → breaks !! k' = Some lo' → breaks !! S k' = Some hi' →
                    ¬ ((lo' <= inject_Z count)%Q ∧ (inject_Z count < hi')%Q)) ∨
  (breaks ≠ [] ∧ c = top_color ∧
   ∀ k lo hi, breaks !! k = Some lo → breaks !! S k = Some hi →
              ¬ ((lo <= inject_Z count)%Q ∧ (inject_Z count < hi)%Q)).
Proof.
  unfold get_color_for_count. destruct breaks as [|b0 rest].
  - intros [= <-]. by left.
  - destruct (first_interval (inject_Z count) (b0 :: rest) 0) as [j|] eqn:Hj.
    + apply first_interval_some in Hj
        as (k & lo & hi & -> & Hl & Hh & Hc1 & Hc2 & Hfirst).
      simpl. destruct (color_palette !! k) as [c'|] eqn:Hc; [|discriminate].
      intros [= <-]. right; left. exists k, lo, hi. repeat split; done.
    + intros [= <-]. right; right. split; [done|]. split; [done|].
      by apply (first_interval_none_inv _ _ 0).
Qed.

Lemma color_meaning_witness :
  (classify_counts abc = [] ∧ "#FFDC00" = no_data_color) ∨
  (∃ k lo hi, classify_counts abc !! k = Some lo ∧ classify_counts abc !! S k = Some hi ∧
      (lo <= inject_Z 2)%Q ∧ (inject_Z 2 < hi)%Q ∧
      color_palette !! k = Some "#FFDC00" ∧
      ∀ k' lo' hi', k' < k → classify_counts abc !! k' = Some lo' →
                    classify_counts abc !! S k' = Some hi' →
                    ¬ ((lo' <= inject_Z 2)%Q ∧ (inject_Z 2 < hi')%Q)) ∨
  (classify_counts abc ≠ [] ∧ "#FFDC00" = top_color ∧
   ∀ k lo hi, classify_counts abc !! k = Some lo → classify_counts abc !! S k = Some hi →
              ¬ ((lo <= inject_Z 2)%Q ∧ (inject_Z 2 < hi)%Q)).
Proof.
  assert (H : get_color_for_count 2 (classify_counts abc) = Ok "#FFDC00")
    by (vm_compute; reflexivity).
  exact (color_meaning 2 (classify_counts abc) "#FFDC00" H).
Defined.

Lemma insert_sortedQ_HdRel (a x : Q) (l : list Q) :
  HdRel Qle a l → (a <= x)%Q → HdRel Qle a (insert_sortedQ x l).
Proof.
  intros Hl Hax. destruct l as [|y l']; simpl; [by constructor|].
  destruct (Qle_bool x y); constructor; [done|]. by inversion Hl.
Qed.

Lemma insert_sortedQ_sorted (x : Q) (l : list Q) :
  Sorted Qle l → Sorted Qle (insert_sortedQ x l).
Proof.
  induction 1 as [|y l' Hl' IH Hy]; simpl; [by repeat constructor|].
  destruct (Qle_bool x y) eqn:Hxy.
  - apply Qle_bool_iff in Hxy. by repeat constructor.
  - constructor; [exact IH|]. apply insert_sortedQ_HdRel; [done|].
    apply Qlt_le_weak, Qnot_le_lt. intros Hle. apply Qle_bool_iff in Hle. congruence.
Qed.

Lemma sortedQ_sorted (l : list Q) : Sorted Qle (foldr insert_sortedQ [] l).
Proof.
  induction l as [|x l IH]; simpl; [constructor|]. by apply insert_sortedQ_sorted.
Qed.

Lemma dedup_sorted_HdRel (a : Q) (l : list Q) :
  Sorted Qle l → HdRel Qlt a l → HdRel Qlt a (dedup_sorted l).
Proof.
  induction 1 as [|x l' Hl' IH Hx]; intros Ha; [constructor|].
  cbn [dedup_sorted]. destruct l' as [|y l'']; [done|].
  assert (Hax : (a < x)%Q) by (by inversion Ha).
  destruct (Qeq_bool x y); [|by constructor].
  apply IH. constructor. eapply Qlt_le_trans; [exact Hax|]. by inversion Hx.
Qed.

Lemma dedup_sorted_strict (l : list Q) :
  Sorted Qle l → Sorted Qlt (dedup_sorted l).
Proof.
  induction 1 as [|x l' Hl' IH Hx]; [constructor|].
  cbn [dedup_sorted]. destruct l' as [|y l'']; [by repeat constructor|].
  destruct (Qeq_bool x y) eqn:Hxy; [exact IH|].
  constructor; [exact IH|]. apply dedup_sorted_HdRel; [done|]. constructor.
  assert (Hle : (x <= y)%Q) by (by inversion Hx).
  apply Qle_lteq in Hle as [Hlt|Heq]; [done|].
  apply Qeq_bool_iff in Heq. congruence.
Qed.

(** X17. The breakpoints of a count map are strictly increasing, at most
    five, and each lies between the smallest and the largest count. *)
Theorem breakpoints_increasing_within_counts (counts : list (Edge * Z)) (lo hi : Z) :
  Forall (λ ec, (lo <= ec.2 <= hi)%Z) counts →
  Sorted Qlt (classify_counts counts) ∧
  length (classify_counts counts) ≤ 5 ∧
  Forall (λ b, (inject_Z lo <= b)%Q ∧ (b <= inject_Z hi)%Q) (classify_counts counts).
Proof.
  intros Hall. destruct counts as [|ec counts'] eqn:E.
  { repeat split; try constructor. simpl. lia. }
  rewrite <- E in *. assert (Hne : counts ≠ []) by (by rewrite E).
  split; [|split].
  - rewrite E. cbn [classify_counts]. apply dedup_sorted_strict, sortedQ_sorted.
  - apply classify_counts_shape, Hne.
  - apply classify_counts_Forall; [done|]. intros q Hq0 Hq1.
    assert (Hv : snd <$> counts ≠ []) by (rewrite E; done).
    split.
    + apply quantile_lower; try done. apply Forall_fmap.
      eapply Forall_impl; [exact Hall|]. intros ? [? ?]. done.
    + apply quantile_upper; try done. apply Forall_fmap.
      eapply Forall_impl; [exact Hall|]. intros ? [? ?]. done.
Qed.

Lemma breakpoints_increasing_within_counts_witness :
  Sorted Qlt (classify_counts abc) ∧
  length (classify_counts abc) ≤ 5 ∧
  Forall (λ b, (inject_Z 1 <= b)%Q ∧ (b <= inject_Z 10)%Q) (classify_counts abc).
Proof.
  apply (breakpoints_increasing_within_counts abc 1 10).
  unfold abc. repeat (apply Forall_cons_2; [simpl; lia|]). apply Forall_nil_2.
Defined.

End ColorsMore.

Module SafetyScoreMore.
Import Quantile SafetyScore QuantileSpec SafetyScoreSpec.

Local Open Scope R_scope.

Lemma density_score_same_scaled (p50 p95 : Q) (a b : Z) :
  (Qmin (inject_Z a) p95 == Qmin (inject_Z b) p95)%Q →
  density_score p50 p95 a = density_score p50 p95 b.
Proof.
  intros Hx. unfold density_score.
  assert (E : (((Qmin (inject_Z a) p95 - p50) / (p95 - p50 + (1 # 1000000000)))
               == ((Qmin (inject_Z b) p95 - p50) / (p95 - p50 + (1 # 1000000000))))%Q)
    by (by rewrite Hx).
  by rewrite (Qeq_eqR _ _ E).
Qed.

(** X18. Counts are capped at the 95th percentile: two edges of one
    distribution whose counts both reach it get the same score, however
    far apart the counts are. *)
Theorem counts_at_cap_score_alike (crime_counts : list Z) (i j : nat) (a b : Z) :
  crime_counts !! i = Some a →
  crime_counts !! j = Some b →
  (quantile crime_counts (95 # 100) <= inject_Z a)%Q →
  (quantile crime_counts (95 # 100) <= inject_Z b)%Q →
  calculate_crime_density_scores crime_counts !! i
  = calculate_crime_density_scores crime_counts !! j.
Proof.
  intros Hi Hj Ha Hb. unfold calculate_crime_density_scores.
  rewrite !list_lookup_fmap, Hi, Hj. simpl. f_equal.
  apply density_score_same_scaled.
  by rewrite (Q.min_r _ _ Ha), (Q.min_r _ _ Hb).
Qed.

(** Twenty-one streets: nineteen with one incident, one with 50, one
    with 900; the 95th percentile is 50. *)
Definition skewed_counts : list Z := (replicate 19 1 ++ [50; 900])%Z.

Lemma counts_at_cap_score_alike_witness :
  calculate_crime_density_scores skewed_counts !! 19%nat
  = calculate_crime_density_scores skewed_counts !! 20%nat.
Proof.
  apply (counts_at_cap_score_alike skewed_counts 19 20 50 900).
  - reflexivity.
  - reflexivity.
  - vm_compute. discriminate.
  - vm_compute. discriminate.
Defined.

Lemma Int_part_IZR (z : Z) : Int_part (IZR z) = z.
Proof.
  unfold Int_part.
  assert (H : (z + 1)%Z = up (IZR z)).
  { apply tech_up; rewrite plus_IZR; lra. }
  lia.
Qed.

Lemma rint_IZR (z : Z) : rint (IZR z) = z.
Proof.
  unfold rint. rewrite Int_part_IZR.
  destruct (Rlt_dec (IZR z - IZR z) (1 / 2)) as [_|Hn]; [done|].
  exfalso. apply Hn. lra.
Qed.

Lemma round1_tenths (z : Z) : round1 (IZR z / 10) = IZR z / 10.
Proof.
  unfold round1. replace (IZR z / 10 * 10) with (IZR z) by lra.
  by rewrite rint_IZR.
Qed.

Lemma clip_inside (lower upper x : R) :
  lower <= x → x <= upper → clip lower upper x = x.
Proof.
  intros Hl Hu. unfold clip. rewrite (Rmax_right lower x Hl). by apply Rmin_right.
Qed.

(** X19. An edge whose count equals the median of the distribution scores
    exactly 5.0 in the first stage. *)
Theorem median_count_scores_five (crime_counts : list Z) (i : nat) (c : Z) :
  crime_counts !! i = Some c →
  (inject_Z c == quantile crime_counts (50 # 100))%Q →
  calculate_crime_density_scores crime_counts !! i = Some 5.
Proof.
  intros Hi Hmed. unfold calculate_crime_density_scores.
  rewrite list_lookup_fmap, Hi. simpl. f_equal.
  set (p50 := quantile crime_counts (50 # 100)) in *.
  set (p95 := quantile crime_counts (95 # 100)).
  assert (Hne : crime_counts ≠ []) by (intros ->; discriminate Hi).
  assert (Hp : (p50 <= p95)%Q) by (apply quantile_mono; try done; by vm_compute).
  unfold density_score.
  assert (Hx : (Qmin (inject_Z c) p95 == p50)%Q).
  { rewrite Q.min_l; [done|]. by rewrite Hmed. }
  assert (Hd : ¬ (p95 - p50 + (1 # 1000000000) == 0)%Q).
  { assert (0 < 1 # 1000000000)%Q by reflexivity. lra. }
  assert (E : (((Qmin (inject_Z c) p95 - p50) / (p95 - p50 + (1 # 1000000000))) == 0)%Q).
  { rewrite Hx. field. exact Hd. }
  rewrite (Qeq_eqR _ _ E), RMicromega.Q2R_0.
  replace (- 3 * 0) with 0 by lra. rewrite exp_0.
  replace (10 * (1 - 1 / (1 + 1))) with (IZR 50 / 10) by lra.
  rewrite round1_tenths. rewrite clip_inside; lra.
Qed.

Lemma median_count_scores_five_witness :
  calculate_crime_density_scores [1; 2; 10]%Z !! 1%nat = Some 5.
Proof.
  apply (median_count_scores_five [1; 2; 10]%Z 1 2).
  - reflexivity.
  - vm_compute. reflexivity.
Defined.

Lemma sum_nonneg (l : list R) : Forall (λ x, 0 <= x) l → 0 <= sum l.
Proof. induction 1 as [|x l Hx Hl IH]; simpl; lra. Qed.

Lemma sum_pos (l : list R) (x : R) :
  Forall (λ x, 0 <= x) l → x ∈ l → 0 < x → 0 < sum l.
Proof.
  induction 1 as [|y l Hy Hl IH]; intros Hin Hx; [by apply elem_of_nil in Hin|].
  simpl. pose proof (sum_nonneg l Hl).
  apply elem_of_cons in Hin as [->|Hin]; [lra|].
  specialize (IH Hin Hx). lra.
Qed.

(** With two different scores in the table the deviation is a positive
    number. *)
Lemma std_positive (scores : list R) (a b : R) :
  a ∈ scores → b ∈ scores → a ≠ b → ∃ s, std scores = Finite s ∧ 0 < s.
Proof.
  intros Ha Hb Hab.
  destruct scores as [|x [|y l]].
  - by apply elem_of_nil in Ha.
  - apply list_elem_of_singleton in Ha, Hb. congruence.
  - set (scores := x :: y :: l) in *.
    eexists. split; [reflexivity|]. apply sqrt_lt_R0.
    assert (Hn : 0 < INR (length scores - 1)).
    { simpl length. rewrite Nat.sub_succ, Nat.sub_0_r. apply lt_0_INR. lia. }
    apply Rdiv_lt_0_compat; [|exact Hn].
    set (m := mean scores).
    assert (Hsq : Forall (λ v, 0 <= v) ((λ v, (v - m) * (v - m)) <$> scores)).
    { apply Forall_fmap, Forall_forall. intros v _. apply (Rle_0_sqr (v - m)). }
    destruct (Req_dec a m) as [Ham|Ham].
    + apply (sum_pos _ ((b - m) * (b - m)) Hsq).
      * apply list_elem_of_fmap. by exists b.
      * apply (Rsqr_pos_lt (b - m)). lra.
    + apply (sum_pos _ ((a - m) * (a - m)) Hsq).
      * apply list_elem_of_fmap. by exists a.
      * apply (Rsqr_pos_lt (a - m)). lra.
Qed.

(** The map the last step applies to a score, for a given mean and a
    non-zero deviation. *)
Definition final_of (m s x : R) : R := clip 0 10 (round1 ((x - m) / s * 2 + 5)).

Lemma final_of_mono (m s x y : R) : 0 < s → x <= y → final_of m s x <= final_of m s y.
Proof.
  intros Hpos Hxy. apply clip_mono, round1_mono.
  assert (H : (x - m) / s <= (y - m) / s).
  { unfold Rdiv. apply Rmult_le_compat_r; [|lra].
    apply Rlt_le, Rinv_0_lt_compat, Hpos. }
  lra.
Qed.

Lemma final_of_range (m s x : R) : 0 <= final_of m s x <= 10.
Proof. apply clip_bounds. lra. Qed.

Lemma renormalize_finite (scores : list R) (a b : R) :
  a ∈ scores → b ∈ scores → a ≠ b →
  ∃ s, 0 < s ∧
       renormalize scores = (λ x, Finite (final_of (mean scores) s x)) <$> scores.
Proof.
  intros Ha Hb Hab.
  destruct (std_positive scores a b Ha Hb Hab) as (s & Hs & Hpos).
  exists s. split; [exact Hpos|].
  unfold renormalize. rewrite Hs. apply list_fmap_ext. intros k x _.
  unfold fdiv. destruct (Req_EM_T s 0) as [E|_]; [lra|]. reflexivity.
Qed.

(** X20. When the score table holds two different values, the
    re-normalization gives every street a number between 0 and 10 (no NaN
    and no infinity), and it preserves the order of the scores: one
    non-decreasing map is applied to every score. *)
Theorem renormalize_spread (scores : list R) (a b : R) :
  a ∈ scores → b ∈ scores → a ≠ b →
  ∃ final : R → R,
    (∀ x y, x <= y → final x <= final y) ∧
    (∀ x, 0 <= final x <= 10) ∧
    renormalize scores = (λ x, Finite (final x)) <$> scores.
Proof.
  intros Ha Hb Hab.
  destruct (renormalize_finite scores a b Ha Hb Hab) as (s & Hpos & Hren).
  exists (final_of (mean scores) s). split; [|split].
  - intros x y. by apply final_of_mono.
  - apply final_of_range.
  - exact Hren.
Qed.

Lemma renormalize_spread_witness :
  ∃ final : R → R,
    (∀ x y, x <= y → final x <= final y) ∧
    (∀ x, 0 <= final x <= 10) ∧
    renormalize [5; 10] = (λ x, Finite (final x)) <$> [5; 10].
Proof.
  assert (H5 : 5 ∈ [5; 10]) by left.
  assert (H10 : 10 ∈ [5; 10]) by (right; left).
  assert (Hne : 5 ≠ 10) by lra.
  exact (renormalize_spread [5; 10] 5 10 H5 H10 Hne).
Defined.

Lemma zip_fmap_both {A B C} (f : A → B) (g : A → C) (l : list A) :
  zip (f <$> l) (g <$> l) = (λ x, (f x, g x)) <$> l.
Proof. induction l as [|x l IH]; [done|]. cbn. f_equal. exact IH. Qed.

(** The score a street carries into the last step. *)
Definition merged_score (edge_counts : list (Edge * Z)) (e : Edge) : R :=
  let scores := calculate_crime_density_scores (snd <$> edge_counts) in
  let table : gmap Edge R := list_to_map (zip (fst <$> edge_counts) scores) in
  default 10 (table !! e).

Lemma merged_scores_fmap gdf_edges edge_counts :
  merged_scores gdf_edges edge_counts = merged_score edge_counts <$> gdf_edges.
Proof. reflexivity. Qed.

Lemma merged_score_cases (edges : list Edge) (e : Edge) :
  (e ∉ edges → merged_score (value_counts edges) e = 10) ∧
  (e ∈ edges → 1 / 2 <= merged_score (value_counts edges) e <= 19 / 2).
Proof.
  unfold merged_score, calculate_crime_density_scores.
  set (p50 := quantile _ _). set (p95 := quantile _ _).
  rewrite <- list_fmap_compose, zip_fmap_both.
  set (table := (λ x : Edge * Z, (x.1, (density_score p50 p95 ∘ snd) x))
                <$> value_counts edges).
  assert (Hkeys : table.*1 = unique edges).
  { subst table. rewrite <- list_fmap_compose.
    rewrite <- (ViewSpec.value_counts_keys edges). by apply list_fmap_ext. }
  split.
  - intros Hnin. rewrite (not_elem_of_list_to_map_1 table e); [done|].
    rewrite Hkeys. by rewrite elem_of_unique.
  - intros Hin.
    assert (Hrow : (e, density_score p50 p95 (ViewSpec.tally e edges)) ∈ table).
    { subst table. apply list_elem_of_fmap. exists (e, ViewSpec.tally e edges).
      split; [done|]. by apply ViewSpec.elem_of_value_counts. }
    rewrite (elem_of_list_to_map_1 table e (density_score p50 p95 (ViewSpec.tally e edges)));
      [|rewrite Hkeys; apply NoDup_unique|exact Hrow].
    simpl. apply density_score_bounds.
Qed.

Lemma precompute_counted (gdf_edges : list Edge) (geo_df : DataFrame) :
  value_counts (omap edge geo_df) ≠ [] →
  precompute_safety_scores gdf_edges geo_df
  = Ok (zip gdf_edges
          (renormalize (merged_scores gdf_edges (value_counts (omap edge geo_df))))).
Proof. unfold precompute_safety_scores. by destruct (value_counts _). Qed.

(** X21. On a network that has a street without incidents and a street
    with incidents, the pre-computation scores every street of the street
    table once, in table order, with a number between 0 and 10, and no
    street scores higher than a street without incidents. *)
Theorem safe_streets_rank_highest (gdf_edges : list Edge) (geo_df : DataFrame)
    (e0 e1 : Edge) :
  e0 ∈ gdf_edges → e0 ∉ omap edge geo_df →
  e1 ∈ gdf_edges → e1 ∈ omap edge geo_df →
  ∃ final_score : Edge → R,
    precompute_safety_scores gdf_edges geo_df
      = Ok ((λ e, (e, Finite (final_score e))) <$> gdf_edges) ∧
    (∀ e, 0 <= final_score e <= 10) ∧
    (∀ e e', e ∉ omap edge geo_df → final_score e' <= final_score e).
Proof.
  intros H0 Hn0 H1 Hi1.
  set (edges := omap edge geo_df) in *.
  set (score := merged_score (value_counts edges)).
  assert (Hs0 : score e0 = 10) by (by apply merged_score_cases).
  assert (Hs1 : 1 / 2 <= score e1 <= 19 / 2) by (by apply merged_score_cases).
  assert (Ha : score e0 ∈ score <$> gdf_edges) by (apply list_elem_of_fmap; eauto).
  assert (Hb : score e1 ∈ score <$> gdf_edges) by (apply list_elem_of_fmap; eauto).
  assert (Hab : score e0 ≠ score e1) by lra.
  destruct (renormalize_finite (score <$> gdf_edges) _ _ Ha Hb Hab)
    as (s & Hpos & Hren).
  set (final := final_of (mean (score <$> gdf_edges)) s) in *.
  assert (Hmono : ∀ x y, x <= y → final x <= final y)
    by (intros x y; by apply final_of_mono).
  assert (Hrange : ∀ x, 0 <= final x <= 10) by apply final_of_range.
  exists (λ e, final (score e)). split; [|split].
  - rewrite precompute_counted.
    + fold edges. f_equal. rewrite merged_scores_fmap. fold score.
      rewrite Hren, <- list_fmap_compose.
      rewrite <- (list_fmap_id gdf_edges) at 1. apply zip_fmap_both.
    + fold edges. intros Hvc.
      assert (Hin : (e1, ViewSpec.tally e1 edges) ∈ value_counts edges)
        by (by apply ViewSpec.elem_of_value_counts).
      rewrite Hvc in Hin. by apply elem_of_nil in Hin.
  - intros e. apply Hrange.
  - intros e e' Hne. apply Hmono.
    assert (He : score e = 10) by (by apply merged_score_cases).
    rewrite He. destruct (decide (e' ∈ edges)) as [Hin|Hnin].
    + pose proof (proj2 (merged_score_cases edges e') Hin). fold score in H. lra.
    + pose proof (proj1 (merged_score_cases edges e') Hnin). fold score in H. lra.
Qed.

Lemma safe_streets_rank_highest_witness :
  ∃ final_score : Edge → R,
    precompute_safety_scores two_streets [incident_on (1, 2, 0)%Z]
      = Ok ((λ e, (e, Finite (final_score e))) <$> two_streets) ∧
    (∀ e, 0 <= final_score e <= 10) ∧
    (∀ e e', e ∉ omap edge [incident_on (1, 2, 0)%Z] → final_score e' <= final_score e).
Proof.
  assert (H0 : (2, 1, 0)%Z ∈ two_streets) by (right; left).
  assert (H1 : (1, 2, 0)%Z ∈ two_streets) by left.
  assert (Hi1 : (1, 2, 0)%Z ∈ omap edge [incident_on (1, 2, 0)%Z]) by left.
  assert (Hn0 : (2, 1, 0)%Z ∉ omap edge [incident_on (1, 2, 0)%Z]).
  { apply not_elem_of_cons. split; [discriminate|apply not_elem_of_nil]. }
  exact (safe_streets_rank_highest two_streets [incident_on (1, 2, 0)%Z]
           (2, 1, 0)%Z (1, 2, 0)%Z H0 Hn0 H1 Hi1).
Defined.

End SafetyScoreMore.

Module PredictiveSpec.
Import Predictive.

Lemma length_filter_eq_NoDup (l : list Z) (x : Z) :
  NoDup l →
  length (List.filter (λ y, bool_decide (y = x)) l) = if decide (x ∈ l) then 1 else 0.
Proof.
  induction 1 as [|y l Hy Hnd IH]; [done|]. simpl.
  destruct (decide (y = x)) as [->|Hne].
  - rewrite bool_decide_eq_true_2 by done. simpl. rewrite IH.
    rewrite decide_False by done. rewrite decide_True by left. done.
  - rewrite bool_decide_eq_false_2 by done. rewrite IH.
    destruct (decide (x ∈ l)) as [Hin|Hnin].
    + rewrite decide_True by (by right). done.
    + rewrite decide_False; [done|]. rewrite elem_of_cons. intros [?|?]; congruence.
Qed.

Definition is_cluster (c : Z) : bool := bool_decide (c ≠ (-1)%Z).

Lemma unique_filter_length (clusters : list Z) :
  length (unique (List.filter is_cluster clusters))
  = length (List.filter is_cluster (unique clusters)).
Proof.
  apply Permutation_length, NoDup_Permutation.
  - apply NoDup_unique.
  - apply NoDup_filter_bool, NoDup_unique.
  - intros x. rewrite elem_of_unique, !elem_of_filter_bool, elem_of_unique. done.
Qed.

Lemma distinct_labels_split (clusters : list Z) :
  length (unique clusters)
  = length (unique (List.filter is_cluster clusters))
    + (if decide ((-1)%Z ∈ clusters) then 1 else 0).
Proof.
  rewrite unique_filter_length.
  rewrite <- (List.filter_length is_cluster (unique clusters)). f_equal.
  rewrite (GeocodeSpec.filter_ext_in _ (λ y, bool_decide (y = (-1)%Z))).
  - rewrite (length_filter_eq_NoDup _ _ (NoDup_unique clusters)).
    destruct (decide ((-1)%Z ∈ clusters)) as [Hin|Hnin].
    + rewrite decide_True; [done|]. by apply elem_of_unique.
    + rewrite decide_False; [done|]. by rewrite elem_of_unique.
  - intros x _. unfold is_cluster.
    destruct (decide (x = (-1)%Z)) as [->|Hne].
    + rewrite bool_decide_eq_false_2 by (intros H; by apply H).
      by rewrite bool_decide_eq_true_2.
    + rewrite bool_decide_eq_true_2 by done. by rewrite bool_decide_eq_false_2.
Qed.

Lemma unique_constant (clusters : list Z) (c : Z) :
  clusters ≠ [] → Forall (λ x, x = c) clusters → unique clusters = [c].
Proof.
  intros Hne Hall. destruct Hall as [|x l -> Hl]; [done|]. simpl. f_equal.
  apply GeocodeCache.filter_none. intros y Hy.
  apply (proj1 (elem_of_unique l y)) in Hy.
  rewrite Forall_forall in Hl. rewrite (Hl y Hy).
  apply bool_decide_eq_false. intros H. by apply H.
Qed.

(** X22. The cluster count of the DBSCAN view is the number of distinct
    labels minus one.  It equals the number of clusters found exactly
    when some point is labelled as noise; when no point is noise it is one
    short, so a labelling that puts every point in one cluster is reported
    as "no clusters found". *)
Theorem n_clusters_assumes_noise (clusters : list Z) :
  let found := Z.of_nat (length (unique (List.filter is_cluster clusters))) in
  ((-1)%Z ∈ clusters → n_clusters clusters = found) ∧
  ((-1)%Z ∉ clusters → n_clusters clusters = (found - 1)%Z) ∧
  (∀ c, c ≠ (-1)%Z → clusters ≠ [] → Forall (λ x, x = c) clusters →
     cluster_report clusters = NoClustersFound).
Proof.
  cbv zeta. unfold n_clusters, np_unique_labels.
  rewrite QuantileSpec.length_sort, distinct_labels_split.
  split; [|split].
  - intros Hin. rewrite decide_True by done. lia.
  - intros Hnin. rewrite decide_False by done. lia.
  - intros c Hc Hne Hall. unfold cluster_report, n_clusters, np_unique_labels.
    rewrite QuantileSpec.length_sort, (unique_constant clusters c Hne Hall). reflexivity.
Qed.

End PredictiveSpec.

Module RunSpec.
Import Fetch Geocode Dashboard GeocodeSpec.

Definition processed_row (r : Incident) : Prop :=
  is_Some (Block_Address r) ∧ is_Some (coords r) ∧
  is_Some (latitude r) ∧ is_Some (longitude r) ∧ is_Some (edge r) ∧
  (is_Some (hour r) ↔ is_Some (Occurred_Datetime r)) ∧
  (is_Some (time_of_day r) ↔ is_Some (Occurred_Datetime r)).

Lemma processed_row_of_joined nearest_edges geocode df w r :
  r ∈ joined geocode df w →
  processed_row (process_spatial_row nearest_edges (TimeBuckets.add_time_of_day_row r)).
Proof.
  intros Hr.
  destruct (GeocodeCache.joined_row _ _ _ _ Hr) as (a & c & Ha & _ & Hc & Hlat & Hlon).
  unfold processed_row, process_spatial_row, TimeBuckets.add_time_of_day_row. simpl.
  rewrite Ha, Hc, Hlat, Hlon. simpl.
  destruct (Occurred_Datetime r) as [ms|]; simpl.
  - rewrite (TimeBucketsSpec.bucket_of_hour_expected _ (TimeBucketsSpec.dt_hour_range ms)).
    repeat split; eauto.
  - repeat split; eauto; by intros [? ?].
Qed.

(** X23. A run of the analysis that ends without an exception always
    stores a processed frame (the empty-frame branch is never taken), the
    frame is not empty, every row of it has an address, coordinates and a
    road edge, a row has an hour and a bucket exactly when it has a
    timestamp, and the geocode cache file has been written. *)
Theorem run_analysis_outcome (service : Service) (fuel : nat) (geocode : Provider)
    (nearest_edges : Q → Q → Edge) (s e : Date) (w w' : World)
    (stored : option DataFrame) :
  run_analysis service fuel geocode nearest_edges s e w = Some (Ok stored, w') →
  ∃ df, stored = Some df ∧ df ≠ [] ∧ Forall processed_row df ∧
        is_Some (cache_file w').
Proof.
  unfold run_analysis. intros H.
  destruct (fetch_crime_data service fuel s e) as [[raw_df|err]|] eqn:Hfetch;
    [|discriminate|discriminate].
  cbn in H.
  assert (Hraw : raw_df ≠ []).
  { unfold fetch_crime_data in Hfetch.
    destruct (fetch_loop service s e fuel 0 []) as [feats|]; [|discriminate].
    cbn in Hfetch. injection Hfetch as Hfetch.
    apply FetchPages.frame_of_features_rows in Hfetch as [Hne Hlen].
    intros ->. destruct feats; [done|discriminate]. }
  destruct raw_df as [|r0 raw]; [done|].
  rewrite (GeocodeCache.geocode_addresses_eq geocode (r0 :: raw) w) in H.
  destruct (joined geocode (r0 :: raw) w) as [|x out] eqn:Hj; [discriminate|].
  injection H as <- <-.
  eexists. split; [reflexivity|]. split; [done|]. split; [|by eexists].
  unfold process_spatial_data, TimeBuckets.add_time_of_day.
  rewrite <- list_fmap_compose.
  change (Forall processed_row
            ((process_spatial_row nearest_edges ∘ TimeBuckets.add_time_of_day_row)
               <$> (x :: out))).
  apply Forall_fmap, Forall_forall.
  intros r Hr. apply (processed_row_of_joined nearest_edges geocode (r0 :: raw) w).
  by rewrite Hj.
Qed.

Lemma run_analysis_outcome_witness :
  ∃ df, df ≠ [] ∧ Forall processed_row df ∧
        fst <$> run_analysis FetchPages.two_page_service 3 sample_provider
                  (λ _ _, (1, 2, 0)%Z) (mkDate 2025 1 1) (mkDate 2025 1 3)
                  (mkWorld None [])
        = Some (Ok (Some df)).
Proof.
  destruct (run_analysis FetchPages.two_page_service 3 sample_provider
              (λ _ _, (1, 2, 0)%Z) (mkDate 2025 1 1) (mkDate 2025 1 3)
              (mkWorld None [])) as [[[[df|]|err] w']|] eqn:Hrun;
    try (vm_compute in Hrun; discriminate Hrun).
  destruct (run_analysis_outcome _ _ _ _ _ _ _ _ _ Hrun) as (df' & [= <-] & Hne & Hall & _).
  exists df. done.
Defined.

End RunSpec.
